(** * PPO_c.py: clipped-surrogate PPO with a fixed-variance Gaussian policy

    A shallow embedding of [src/PPO_c.py] and the properties of its
    specification.

    Conventions of the model.
    - A Python/torch float is a real number ([R]): rounding, overflow and
      NaN are not represented.  Where torch would produce NaN (a mean over
      no element, a standard deviation over fewer than two) the model
      produces whatever [x / 0] is in [R]; the theorems that depend on such
      a value exclude the case by hypothesis.
    - A one-dimensional tensor is a [list R].  Element-wise operations pair
      the operands position by position ([map2]); the theorems about them
      assume operands of one length, where torch neither broadcasts nor
      raises.
    - The networks, the Gaussian distribution, automatic differentiation and
      Adam belong to torch; they are the fields of the class [Backend].
    - Python exceptions are values of [error]; a call that can raise returns
      a [result], and [PPO.update], whose calls into torch are observed,
      returns the events it emitted together with its [result]. *)

From Stdlib Require Import Reals Lra Lia List Bool Arith.
Import ListNotations.
Open Scope R_scope.

(** ** Exceptions *)

(** The first four are the kinds of the specification's taxonomy; the last
    three are the Python exceptions the source can actually raise. *)
Inductive error : Type :=
| ConstructionError
| BufferConsistencyError
| EmptyBufferError
| NumericInstabilityError
| RuntimeError        (* torch.stack on an empty list *)
| ValueError          (* MultivariateNormal on a covariance that is not positive definite *)
| UnboundLocalError.  (* a local read before any assignment *)

Inductive result (A : Type) : Type :=
| Ok (a : A)
| Err (e : error).
Arguments Ok {A} a.
Arguments Err {A} e.

Definition rbind {A B} (m : result A) (f : A -> result B) : result B :=
  match m with
  | Ok a => f a
  | Err e => Err e
  end.

(** ** One-dimensional tensors *)

Module Vec.

Definition map2 {A B C} (f : A -> B -> C) (xs : list A) (ys : list B) : list C :=
  map (fun p => f (fst p) (snd p)) (combine xs ys).

Definition sum (xs : list R) : R := fold_right Rplus 0 xs.

(** [x.mean()] *)
Definition mean (xs : list R) : R := sum xs / INR (length xs).

(** [x.std()]: torch's default is the unbiased estimator (divisor n - 1). *)
Definition var (xs : list R) : R :=
  sum (map (fun x => (x - mean xs) * (x - mean xs)) xs) / (INR (length xs) - 1).

Definition std (xs : list R) : R := sqrt (var xs).

(** [torch.clamp(x, lo, hi)] is [min(max(x, lo), hi)]. *)
Definition clamp (x lo hi : R) : R := Rmin (Rmax x lo) hi.

End Vec.
Import Vec.

(** ** Hyperparameters (lines 10-26) *)

Module Hyper.
Definition update_timestep : nat := 4000.
Definition action_std : R := 0.5.
Definition K_epochs : nat := 80.
Definition eps_clip : R := 0.2.
Definition gamma : R := 0.99.
Definition lr : R := 0.0003.
Definition betas : R * R := (0.9, 0.999).
End Hyper.

(** ** Monte-Carlo returns (PPO.update, lines 104-111) *)

(** The body of the [for] loop over [zip(reversed(rewards),
    reversed(is_terminals))]: [disc_reward] is the accumulator and
    [Returns.insert(0, disc_reward)] puts each new value in front. *)
Fixpoint returns_loop (gamma : R) (pairs : list (R * bool))
    (disc_reward : R) (Returns : list R) : list R :=
  match pairs with
  | [] => Returns
  | (reward, is_terminal) :: rest =>
      let disc_reward := if is_terminal then 0 else disc_reward in
      let disc_reward := reward + gamma * disc_reward in
      returns_loop gamma rest disc_reward (disc_reward :: Returns)
  end.

Definition compute_returns (gamma : R) (rewards : list R)
    (is_terminals : list bool) : list R :=
  returns_loop gamma (combine (rev rewards) (rev is_terminals)) 0 [].

(** The specification's closed form: the sum over k from t to the last
    index of [gamma^(k-t) * reward_k]. *)
Definition discounted_sum (gamma : R) (rewards : list R) (t : nat) : R :=
  sum (map (fun k => gamma ^ (k - t) * nth k rewards 0)
           (seq t (length rewards - t))).

(** Every terminal flag is false, the last one possibly excepted. *)
Definition single_episode (is_terminals : list bool) : Prop :=
  forall t, (S t < length is_terminals)%nat -> nth t is_terminals false = false.

(** ** Normalisation of the returns (PPO.update, line 115) *)

Definition normalize (Returns : list R) : list R :=
  map (fun x => (x - mean Returns) / (std Returns + 1e-5)) Returns.

(** Two entries of the sequence differ. *)
Definition non_constant (xs : list R) : Prop :=
  exists x y, In x xs /\ In y xs /\ x <> y.

(** ** The clipped surrogate and the loss (PPO.update, lines 130-133) *)

(** One entry of [L_CLIP]: [min(r * A, clamp(r, 1 - eps, 1 + eps) * A)]. *)
Definition surrogate (eps_clip ratio advantage : R) : R :=
  Rmin (ratio * advantage)
       (clamp ratio (1 - eps_clip) (1 + eps_clip) * advantage).

(** [nn.MSELoss()] with its default reduction: the mean of the squared
    differences, a scalar. *)
Definition MseLoss (input target : list R) : R :=
  mean (map2 (fun x y => (x - y) * (x - y)) input target).

(** Lines 130-133.  [loss] is a vector: the scalar [MseLoss] is added to
    every entry of [- L_CLIP].  [state_values] is read twice: detached in the
    advantages ([detached_values]: the same numbers, held constant by
    autograd) and attached in [MseLoss]. *)
Definition loss_vector (eps_clip : R)
    (Returns ratios state_values detached_values dist_entropy : list R) : list R :=
  let advantages := map2 Rminus Returns detached_values in
  let L_CPI := map2 Rmult ratios advantages in
  let L_CLIP :=
    map2 Rmin L_CPI
      (map2 Rmult (map (fun r => clamp r (1 - eps_clip) (1 + eps_clip)) ratios)
         advantages) in
  map2 (fun l e => - l + 0.5 * MseLoss state_values Returns - 0.01 * e)
    L_CLIP dist_entropy.

(** Line 137: the scalar handed to [backward]. *)
Definition loss_mean (eps_clip : R)
    (Returns ratios state_values detached_values dist_entropy : list R) : R :=
  mean (loss_vector eps_clip Returns ratios state_values detached_values dist_entropy).

(** The specification's step 7 and 8: the per-step loss
    [- surrogate + 0.5 * squared_error(value, return) - 0.01 * entropy],
    averaged over the batch. *)
Definition spec_step_loss (eps_clip Return ratio state_value entropy : R) : R :=
  - surrogate eps_clip ratio (Return - state_value)
  + 0.5 * ((state_value - Return) * (state_value - Return))
  - 0.01 * entropy.

Fixpoint spec_step_losses (eps_clip : R) (Returns ratios state_values dist_entropy : list R)
    : list R :=
  match Returns, ratios, state_values, dist_entropy with
  | G :: Returns, r :: ratios, v :: state_values, e :: dist_entropy =>
      spec_step_loss eps_clip G r v e
      :: spec_step_losses eps_clip Returns ratios state_values dist_entropy
  | _, _, _, _ => []
  end.

Definition spec_batch_loss (eps_clip : R) (Returns ratios state_values dist_entropy : list R) : R :=
  mean (spec_step_losses eps_clip Returns ratios state_values dist_entropy).

(** ** Tensors that carry gradient metadata, and the trajectory buffer *)

Record tensor : Type := { data : list R; requires_grad : bool }.

Definition detach (t : tensor) : tensor :=
  {| data := data t; requires_grad := false |}.

(** [class Memory] (lines 141-154). *)
Record Memory : Type := {
  actions : list tensor;
  states : list tensor;
  logprobs : list tensor;
  rewards : list R;
  is_terminals : list bool
}.

Definition Memory_init : Memory :=
  {| actions := []; states := []; logprobs := []; rewards := []; is_terminals := [] |}.

Definition clear_memory (self : Memory) : Memory :=
  {| actions := []; states := []; logprobs := []; rewards := []; is_terminals := [] |}.

(** The specification's invariant: the five sequences have one length. *)
Definition consistent (m : Memory) : Prop :=
  length (states m) = length (actions m) /\
  length (logprobs m) = length (actions m) /\
  length (rewards m) = length (actions m) /\
  length (is_terminals m) = length (actions m).

(** ** The numeric collaborator (torch) *)

Class Backend : Type := {
  Params : Type;     (* a state_dict: the weights of the actor and of the critic *)
  OptState : Type;   (* Adam's moment estimates and step count *)
  Grad : Type;
  Rng : Type;        (* torch's random generator *)
  init_params : nat -> nat -> Rng -> Params * Rng;
  actor : Params -> list R -> list R;
  critic : Params -> list R -> R;
  mvn_sample : list R -> list R -> Rng -> list R * Rng;
  mvn_log_prob : list R -> list R -> list R -> R;
  mvn_entropy : list R -> list R -> R;
  backward : (Params -> R) -> Params -> Grad;
  adam_init : Params -> R -> R * R -> OptState;
  adam_step : OptState -> Params -> Grad -> OptState * Params
}.

(** The environment collaborator: [env.step(action)] gives the next state,
    the reward and the terminal flag. *)
Class Environment : Type := {
  Env : Type;
  env_step : Env -> list R -> (list R * R * bool) * Env
}.

(** A diagonal covariance is positive definite when every diagonal entry
    is positive. *)
Definition positive_definite (var : list R) : bool :=
  forallb (fun v => if Rlt_dec 0 v then true else false) var.

(** [MultivariateNormal(loc, cov)] validates its covariance; [loc] is one
    mean in [act] and a batch of means in [evaluate]. *)
Definition MultivariateNormal {L : Type} (loc : L) (var : list R) : result (L * list R) :=
  if positive_definite var then Ok (loc, var) else Err ValueError.

(** [torch.stack] refuses an empty list. *)
Definition stack {A : Type} (tensors : list A) : result (list A) :=
  match tensors with
  | [] => Err RuntimeError
  | _ => Ok tensors
  end.

Section Program.
Context {B : Backend} {E : Environment}.

(** ** class ActorCritic (lines 28-79) *)

Record ActorCritic : Type := {
  params : Params;          (* self.actor and self.critic *)
  action_var : list R       (* a plain attribute: not part of the state_dict *)
}.

(** Lines 29-50.  Nothing is checked: the result is always [Ok]. *)
Definition ActorCritic_init (state_dim action_dim : nat) (action_std : R) (rng : Rng)
    : result (ActorCritic * Rng) :=
  let (p, rng) := init_params state_dim action_dim rng in
  Ok ({| params := p; action_var := repeat (action_std * action_std) action_dim |}, rng).

Definition state_dict (self : ActorCritic) : Params := params self.

Definition load_state_dict (self : ActorCritic) (sd : Params) : ActorCritic :=
  {| params := sd; action_var := action_var self |}.

(** Lines 53-66. *)
Definition act (self : ActorCritic) (state : tensor) (memory : Memory) (rng : Rng)
    : result (tensor * Memory * Rng) :=
  let action_mean := actor (params self) (data state) in
  rbind (MultivariateNormal action_mean (action_var self)) (fun distribution =>
  let (sampled, rng) := mvn_sample (fst distribution) (snd distribution) rng in
  let action := {| data := sampled; requires_grad := false |} in
  let action_logprob :=
    {| data := [mvn_log_prob (fst distribution) (snd distribution) sampled];
       requires_grad := true |} in
  let memory :=
    {| actions := actions memory ++ [action];
       states := states memory ++ [state];
       logprobs := logprobs memory ++ [action_logprob];
       rewards := rewards memory;
       is_terminals := is_terminals memory |} in
  Ok (detach action, memory, rng)).

(** Lines 68-79: log-probabilities, squeezed state values, entropies. *)
Definition evaluate (self : ActorCritic) (state action : list (list R))
    : result (list R * list R * list R) :=
  let action_mean := map (actor (params self)) state in
  rbind (MultivariateNormal action_mean (action_var self)) (fun distribution =>
  let action_logprob :=
    map2 (fun m a => mvn_log_prob m (snd distribution) a) (fst distribution) action in
  let dist_entropy := map (fun m => mvn_entropy m (snd distribution)) (fst distribution) in
  let state_value := map (critic (params self)) state in
  Ok (action_logprob, state_value, dist_entropy)).

(** ** class PPO (lines 81-140) *)

Record PPO : Type := {
  lr : R;
  betas : R * R;
  gamma : R;
  eps_clip : R;
  K_epochs : nat;
  policy : ActorCritic;
  optimizer : OptState;
  policy_old : ActorCritic
}.

(** Lines 82-96. *)
Definition PPO_init (state_dim action_dim : nat) (action_std lr : R) (betas : R * R)
    (gamma : R) (K_epochs : nat) (eps_clip : R) (rng : Rng) : result (PPO * Rng) :=
  rbind (ActorCritic_init state_dim action_dim action_std rng) (fun '(policy, rng) =>
  let optimizer := adam_init (params policy) lr betas in
  rbind (ActorCritic_init state_dim action_dim action_std rng) (fun '(policy_old, rng) =>
  let policy_old := load_state_dict policy_old (state_dict policy) in
  Ok ({| lr := lr; betas := betas; gamma := gamma; eps_clip := eps_clip;
         K_epochs := K_epochs; policy := policy; optimizer := optimizer;
         policy_old := policy_old |}, rng))).

(** Lines 97-100: the state becomes a [FloatTensor], the action comes back
    as a flat array of numbers. *)
Definition action_selection (self : PPO) (state : list R) (memory : Memory) (rng : Rng)
    : result (list R * Memory * Rng) :=
  let state := {| data := state; requires_grad := false |} in
  rbind (act (policy_old self) state memory rng) (fun '(action, memory, rng) =>
  Ok (data action, memory, rng)).

(** *** What [update] asks of torch, in order *)

Inductive snapshot : Type := Current | Old.   (* self.policy, self.policy_old *)

Inductive event : Type :=
| EvReduce (Returns : list R)          (* Returns.mean() and Returns.std() *)
| EvEvaluate (on : snapshot) (j : nat) (* an evaluate call, in epoch j *)
| EvZeroGrad                           (* self.optimizer.zero_grad() *)
| EvBackward (j : nat) (loss : R)      (* loss.mean().backward(), on epoch j's graph *)
| EvStep                               (* self.optimizer.step() *)
| EvLoadStateDict.                     (* self.policy_old.load_state_dict(...) *)

Definition is_evaluate (ev : event) : bool :=
  match ev with EvEvaluate _ _ => true | _ => false end.
Definition is_backward (ev : event) : bool :=
  match ev with EvBackward _ _ => true | _ => false end.
Definition is_step (ev : event) : bool :=
  match ev with EvStep => true | _ => false end.
Definition is_reduce (ev : event) : bool :=
  match ev with EvReduce _ => true | _ => false end.

(** Events emitted so far, and the value or the exception. *)
Definition M (A : Type) : Type := list event * result A.

Definition ret {A} (a : A) : M A := ([], Ok a).
Definition raise {A} (e : error) : M A := ([], Err e).
Definition tell (ev : event) : M unit := ([ev], Ok tt).
Definition lift {A} (r : result A) : M A := ([], r).

Definition bind {A C} (m : M A) (f : A -> M C) : M C :=
  match m with
  | (tr, Ok a) => let (tr', r) := f a in (tr ++ tr', r)
  | (tr, Err e) => (tr, Err e)
  end.

Notation "x <- m ;; k" := (bind m (fun x => k))
  (at level 61, m at next level, right associativity).
Notation "m ;;; k" := (bind m (fun _ => k))
  (at level 61, right associativity).

(** The names the epoch loop leaves bound when it ends. *)
Record locals : Type := {
  j : nat;
  log_probs : list R;
  state_values : list R;
  dist_entropy : list R;
  ratios : list R
}.

(** Lines 122-126, over [range(K_epochs)]: each pass rebinds the five
    names; nothing else happens in the loop. *)
Fixpoint epochs (self : PPO) (old_states old_actions : list (list R))
    (old_logprobs : list R) (js : list nat) (bound : option locals)
    : M (option locals) :=
  match js with
  | [] => ret bound
  | j :: js =>
      tell (EvEvaluate Current j) ;;;
      out <- lift (evaluate (policy self) old_states old_actions) ;;
      let '(log_probs, state_values, dist_entropy) := out in
      let ratios := map2 (fun lp olp => exp (lp - olp)) log_probs old_logprobs in
      epochs self old_states old_actions old_logprobs js
        (Some {| j := j; log_probs := log_probs; state_values := state_values;
                 dist_entropy := dist_entropy; ratios := ratios |})
  end.

(** What autograd differentiates: the scalar loss as a function of the
    current parameters, with the detached tensors (the normalised returns,
    the old log-probabilities, the state values inside the advantages) held
    at their numbers. *)
Definition objective (self : PPO) (Returns : list R) (old_states old_actions : list (list R))
    (old_logprobs : list R) (detached_values : list R) (p : Params) : R :=
  match evaluate (load_state_dict (policy self) p) old_states old_actions with
  | Ok (log_probs, state_values, dist_entropy) =>
      let ratios := map2 (fun lp olp => exp (lp - olp)) log_probs old_logprobs in
      loss_mean (eps_clip self) Returns ratios state_values detached_values dist_entropy
  | Err _ => 0
  end.

(** Lines 102-140.  The second component of the result is the buffer as the
    call leaves it. *)
Definition update (self : PPO) (memory : Memory) : M (PPO * Memory) :=
  let Returns := compute_returns (gamma self) (rewards memory) (is_terminals memory) in
  tell (EvReduce Returns) ;;;
  let Returns := normalize Returns in
  old_states <- lift (stack (map data (states memory))) ;;
  old_actions <- lift (stack (map data (actions memory))) ;;
  old_logprobs <- lift (stack (map (fun t => hd 0 (data t)) (logprobs memory))) ;;
  bound <- epochs self old_states old_actions old_logprobs (seq 0 (K_epochs self)) None ;;
  match bound with
  | None => raise UnboundLocalError
  | Some l =>
      let loss :=
        loss_vector (eps_clip self) Returns (ratios l) (state_values l) (state_values l)
          (dist_entropy l) in
      tell EvZeroGrad ;;;
      tell (EvBackward (j l) (mean loss)) ;;;
      let grad :=
        backward (objective self Returns old_states old_actions old_logprobs (state_values l))
          (params (policy self)) in
      tell EvStep ;;;
      let (optimizer, p) := adam_step (optimizer self) (params (policy self)) grad in
      let policy := load_state_dict (policy self) p in
      tell EvLoadStateDict ;;;
      ret ({| lr := lr self; betas := betas self; gamma := gamma self;
              eps_clip := eps_clip self; K_epochs := K_epochs self;
              policy := policy; optimizer := optimizer;
              policy_old := load_state_dict (policy_old self) (state_dict policy) |},
           memory)
  end.

(** *** Shapes of a run of [update], named for the statements below *)

(** The names bound by a pass of the loop whose [evaluate] returned [out]. *)
Definition bound_by (j : nat) (out : list R * list R * list R) (old_logprobs : list R)
    : locals :=
  let '(log_probs, state_values, dist_entropy) := out in
  {| j := j; log_probs := log_probs; state_values := state_values;
     dist_entropy := dist_entropy;
     ratios := map2 (fun lp olp => exp (lp - olp)) log_probs old_logprobs |}.

(** The events of a call of [update] that runs to its end. *)
Definition complete_trace (Returns : list R) (K : nat) (loss : R) : list event :=
  [EvReduce Returns] ++ map (EvEvaluate Current) (seq 0 K)
  ++ [EvZeroGrad; EvBackward (K - 1) loss; EvStep; EvLoadStateDict].

(** ** The training loop (main, lines 180-194) *)

Record World : Type := {
  ppo : PPO;
  memory : Memory;
  rng : Rng;
  env : Env;
  state : list R;
  time_step : nat
}.

(** Lines 183-188: one step of collection. *)
Definition collect_step (w : World) : result World :=
  rbind (action_selection (ppo w) (state w) (memory w) (rng w)) (fun '(action, memory, rng) =>
  let '(state, reward, done, env) := env_step (env w) action in
  let memory :=
    {| actions := actions memory; states := states memory; logprobs := logprobs memory;
       rewards := rewards memory ++ [reward];
       is_terminals := is_terminals memory ++ [done] |} in
  Ok {| ppo := ppo w; memory := memory; rng := rng; env := env; state := state;
        time_step := time_step w |}).

(** A collection phase: [n] steps with no update in between. *)
Fixpoint collect (n : nat) (w : World) : result World :=
  match n with
  | O => Ok w
  | S n => rbind (collect_step w) (collect n)
  end.

(** Lines 192-194, the body of [if time_step % update_timestep == 0]. *)
Definition update_and_clear (w : World) : M World :=
  r <- update (ppo w) (memory w) ;;
  let (ppo, memory) := r in
  let memory := clear_memory memory in
  ret {| ppo := ppo; memory := memory; rng := rng w; env := env w; state := state w;
         time_step := 0 |}.

(** Lines 181-194: one pass of the inner [for]; [update_timestep] is
    [Hyper.update_timestep] in the source. *)
Definition timestep (update_timestep : nat) (w : World) : M World :=
  let w := {| ppo := ppo w; memory := memory w; rng := rng w; env := env w;
              state := state w; time_step := time_step w + 1 |} in
  w <- lift (collect_step w) ;;
  if (time_step w mod update_timestep =? 0)%nat then update_and_clear w else ret w.

End Program.

(** ** A small backend, to run the program on concrete inputs

    One real number stands for all the weights; the "network" outputs it,
    sampling returns the mean, and the optimizer takes a plain gradient
    step. *)

Module Toy.

#[export] Instance backend : Backend := {|
  Params := R;
  OptState := unit;
  Grad := R;
  Rng := nat;
  init_params := fun _ _ rng => (INR rng, S rng);
  actor := fun p _ => [p];
  critic := fun p _ => p;
  mvn_sample := fun m _ rng => (m, S rng);
  mvn_log_prob := fun _ _ _ => 0;
  mvn_entropy := fun _ _ => 0;
  backward := fun f p => f p;
  adam_init := fun _ _ _ => tt;
  adam_step := fun o p g => (o, p - g)
|}.

(** The environment pays reward 1 and ends the episode after three steps. *)
#[export] Instance environment : Environment := {|
  Env := nat;
  env_step := fun n _ => (([0; 0], 1, (3 <=? S n)%nat), S n)
|}.

Definition policy0 : ActorCritic := {| params := 0; action_var := [0.5 * 0.5] |}.

(** The specification's scenario: variance 0.25, gamma 0.99. *)
Definition ppo0 (K : nat) : PPO :=
  {| lr := Hyper.lr; betas := Hyper.betas; gamma := Hyper.gamma;
     eps_clip := Hyper.eps_clip; K_epochs := K;
     policy := policy0; optimizer := tt; policy_old := policy0 |}.

Definition world0 (K : nat) : World :=
  {| ppo := ppo0 K; memory := Memory_init; rng := 0%nat; env := 0%nat;
     state := [0; 0]; time_step := 0 |}.

(** A buffer of three steps with rewards [1,1,1], flags [F,F,T]. *)
Definition step_tensor (x : R) : tensor := {| data := [x]; requires_grad := false |}.
Definition memory3 : Memory :=
  {| actions := [step_tensor 0; step_tensor 0; step_tensor 0];
     states := [step_tensor 0; step_tensor 0; step_tensor 0];
     logprobs := [step_tensor 0; step_tensor 0; step_tensor 0];
     rewards := [1; 1; 1];
     is_terminals := [false; false; true] |}.

(** The world after three steps of collection, one epoch per update. *)
Definition world3 : World :=
  {| ppo := ppo0 1; memory := memory3; rng := 3%nat; env := 3%nat;
     state := [0; 0]; time_step := 3 |}.

End Toy.

(** ** The training loop, whole (main, lines 155-214)

    What is left out: the environment's construction ([gym.make]), the
    seeding branch (not taken, [random_seed] is [None]), rendering (not
    taken, [render] is [False]), the two [print] calls and the checkpoint
    [torch.save], none of which writes to the state modelled here. *)

Module Loop.
Definition max_episodes : nat := 100 * 100.
Definition max_timesteps : nat := 1500.
Definition log_interval : nat := 20.
End Loop.

Section Driver.
Context {B : Backend} {E : Environment}.

(** [env.reset()]: the first state of an episode. *)
Variable env_reset : Env -> list R * Env.

Local Notation "x <- m ;; k" := (bind m (fun x => k))
  (at level 61, m at next level, right associativity).

(** Lines 181-199, one pass of the inner [for]: the world after it, the
    reward and the [done] flag of the step. *)
Definition loop_pass (update_timestep : nat) (w : World) : M (World * R * bool) :=
  let time_step := (time_step w + 1)%nat in
  r <- lift (action_selection (ppo w) (state w) (memory w) (rng w)) ;;
  let '(action, memory, rng) := r in
  let '(state, reward, done, env) := env_step (env w) action in
  let memory :=
    {| actions := actions memory; states := states memory; logprobs := logprobs memory;
       rewards := rewards memory ++ [reward];
       is_terminals := is_terminals memory ++ [done] |} in
  let w := {| ppo := ppo w; memory := memory; rng := rng; env := env; state := state;
              time_step := time_step |} in
  w <- (if (time_step mod update_timestep =? 0)%nat then update_and_clear w else ret w) ;;
  ret (w, reward, done).

(** [env.observation_space.shape] and [env.action_space.shape]. *)
Variable observation_shape : Env -> list nat.
Variable action_shape : Env -> list nat.

(** The logging variables of [main], and its loop variable [t] ([None]
    while no pass of the inner loop has bound it). *)
Record Log : Type := {
  running_reward : R;
  average_length : nat;
  t : option nat
}.

(** Lines 180-199: [for t in range(max_timesteps)], left at the first
    [done]; [ts] is what remains of the range. *)
Fixpoint episode_loop (update_timestep : nat) (ts : list nat) (w : World) (log : Log)
    : M (World * Log) :=
  match ts with
  | [] => ret (w, log)
  | t :: ts =>
      r <- loop_pass update_timestep w ;;
      let '(w, reward, done) := r in
      let log := {| running_reward := running_reward log + reward;
                    average_length := average_length log; t := Some t |} in
      if done : bool then ret (w, log) else episode_loop update_timestep ts w log
  end.

(** Lines 179-201: one episode, then [average_length += t], which reads
    [t] and raises when no pass has ever bound it. *)
Definition episode (update_timestep max_timesteps : nat) (w : World) (log : Log)
    : M (World * Log) :=
  let (state, env) := env_reset (env w) in
  r <- episode_loop update_timestep (seq 0 max_timesteps)
         {| ppo := ppo w; memory := memory w; rng := rng w; env := env; state := state;
            time_step := time_step w |} log ;;
  let (w, log) := r in
  match t log with
  | None => raise UnboundLocalError
  | Some t =>
      ret (w, {| running_reward := running_reward log;
                 average_length := average_length log + t; t := Some t |})
  end.

(** Lines 178-214 over what remains of [range(1, max_episodes + 1)]: every
    [log_interval] episodes the two logging variables are printed and set
    back to 0. *)
Fixpoint training_loop (update_timestep max_timesteps : nat) (episodes : list nat)
    (w : World) (log : Log) : M (World * Log) :=
  match episodes with
  | [] => ret (w, log)
  | i_episode :: episodes =>
      r <- episode update_timestep max_timesteps w log ;;
      let (w, log) := r in
      let log :=
        if (i_episode mod Loop.log_interval =? 0)%nat
        then {| running_reward := 0; average_length := 0; t := t log |}
        else log in
      training_loop update_timestep max_timesteps episodes w log
  end.

Definition training (update_timestep max_timesteps max_episodes : nat)
    (w : World) (log : Log) : M (World * Log) :=
  training_loop update_timestep max_timesteps (seq 1 max_episodes) w log.

(** How [main] ends: normally, with an exception of the policy code, or
    with the [IndexError] of [shape[0]] on a space without axes. *)
Inductive exit : Type :=
| Finished (w : World) (log : Log)
| Raised (e : error)
| IndexError.

(** Lines 158-214: the dimensions are read from the environment, the
    buffer starts empty, the counters at 0, and the optimizer is built from
    the module's hyperparameters.  [state] and [t] are unbound until the
    first episode. *)
Definition main (env0 : Env) (rng : Rng) : list event * exit :=
  match observation_shape env0 with
  | [] => ([], IndexError)
  | state_dim :: _ =>
      match action_shape env0 with
      | [] => ([], IndexError)
      | action_dim :: _ =>
          match PPO_init state_dim action_dim Hyper.action_std Hyper.lr Hyper.betas
                  Hyper.gamma Hyper.K_epochs Hyper.eps_clip rng with
          | Err e => ([], Raised e)
          | Ok (ppo, rng) =>
              let (tr, r) :=
                training Hyper.update_timestep Loop.max_timesteps Loop.max_episodes
                  {| ppo := ppo; memory := Memory_init; rng := rng; env := env0;
                     state := []; time_step := 0 |}
                  {| running_reward := 0; average_length := 0; t := None |} in
              (tr, match r with
                   | Ok (w, log) => Finished w log
                   | Err e => Raised e
                   end)
          end
      end
  end.

(** Every state the environment hands out, at reset or after a step, has
    [n] entries. *)
Definition emits_states_of (n : nat) : Prop :=
  (forall e, length (fst (env_reset e)) = n)
  /\ (forall e a, length (fst (fst (fst (env_step e a)))) = n).

End Driver.

(** *** What the loop keeps true *)

Section Invariants.
Context {B : Backend} {E : Environment}.

(** The buffer [m] with one more step. *)
Definition grown (m : Memory) (s a lp : tensor) (r : R) (d : bool) : Memory :=
  {| actions := actions m ++ [a]; states := states m ++ [s];
     logprobs := logprobs m ++ [lp];
     rewards := rewards m ++ [r]; is_terminals := is_terminals m ++ [d] |}.

(** Every stored log-probability is the one [old] gives to the stored
    action in the stored state. *)
Definition collected_by (old : ActorCritic) (m : Memory) : Prop :=
  length (states m) = length (actions m)
  /\ logprobs m
     = map2 (fun s a =>
               {| data := [mvn_log_prob (actor (params old) (data s)) (action_var old) (data a)];
                  requires_grad := true |})
         (states m) (actions m).

(** The two snapshots hold the same parameters and the same variance. *)
Definition synced (self : PPO) : Prop :=
  params (policy self) = params (policy_old self)
  /\ action_var (policy self) = action_var (policy_old self).

(** Between two passes of the loop: the buffer holds [time_step] steps,
    fewer than [update_timestep], all collected by the old snapshot. *)
Definition loop_invariant (update_timestep : nat) (w : World) : Prop :=
  consistent (memory w)
  /\ length (actions (memory w)) = time_step w
  /\ (time_step w < update_timestep)%nat
  /\ synced (ppo w)
  /\ collected_by (policy_old (ppo w)) (memory w).

(** No call into torch can raise: at least one epoch, a valid covariance. *)
Definition runnable (self : PPO) : Prop :=
  (1 <= K_epochs self)%nat
  /\ positive_definite (action_var (policy_old self)) = true.

(** Every reduction over the returns is over exactly [n] of them. *)
Definition reduces_over (n : nat) (ev : event) : Prop :=
  match ev with
  | EvReduce Returns => length Returns = n
  | _ => True
  end.

(** The precondition of a pass: the invariant, nothing that can raise, and
    [K] epochs per update. *)
Definition ready (update_timestep K : nat) (w : World) : Prop :=
  loop_invariant update_timestep w /\ runnable (ppo w) /\ K_epochs (ppo w) = K.

(** A trace made of whole updates: every reduction is over [n] returns,
    and reductions, backward passes and optimizer steps come one each per
    update, with [K] calls of [evaluate]. *)
Definition balanced (n K : nat) (tr : list event) : Prop :=
  Forall (reduces_over n) tr
  /\ length (filter is_evaluate tr) = (K * length (filter is_step tr))%nat
  /\ length (filter is_backward tr) = length (filter is_step tr)
  /\ length (filter is_reduce tr) = length (filter is_step tr).

End Invariants.

(** The toy environment starts an episode where it stands. *)
Definition toy_reset : @Env Toy.environment -> list R * @Env Toy.environment :=
  fun n => ([0; 0], n).

(** Its spaces have one axis: two entries per state, one per action. *)
Definition toy_observation_shape : @Env Toy.environment -> list nat := fun _ => [2%nat].
Definition toy_action_shape : @Env Toy.environment -> list nat := fun _ => [1%nat].

(** The logging variables as [main] sets them before the first episode. *)
Definition toy_log : Log := {| running_reward := 0; average_length := 0; t := None |}.

(** One step as the toy policy collects it: the stored log-probability
    carries gradient tracking. *)
Definition toy_memory1 : Memory :=
  {| actions := [Toy.step_tensor 0]; states := [Toy.step_tensor 0];
     logprobs := [{| data := [0]; requires_grad := true |}];
     rewards := [1]; is_terminals := [true] |}.

(** * Properties *)

(** ** Monte-Carlo returns *)

(** The same recurrence written over the chronological list. *)
Fixpoint returns_forward (gamma : R) (steps : list (R * bool)) : list R :=
  match steps with
  | [] => []
  | (reward, is_terminal) :: rest =>
      let later := returns_forward gamma rest in
      (reward + gamma * (if is_terminal then 0 else hd 0 later)) :: later
  end.

Lemma combine_rev_rev {A B} (xs : list A) (ys : list B) :
  length xs = length ys ->
  combine (rev xs) (rev ys) = rev (combine xs ys).
Proof.
  revert ys; induction xs as [|x xs IH]; intros [|y ys] Hlen;
    simpl in *; try discriminate; auto.
  injection Hlen as Hlen.
  rewrite <- IH by assumption.
  clear IH. assert (Hr : length (rev xs) = length (rev ys))
    by (now rewrite !length_rev).
  revert Hr. generalize (rev xs) (rev ys). clear.
  induction l as [|a l IH]; intros [|b l'] H; simpl in *; try discriminate; auto.
  f_equal. apply IH. now injection H.
Qed.

Lemma returns_loop_forward (gamma : R) (earlier later : list (R * bool)) :
  returns_loop gamma (rev earlier)
    (hd 0 (returns_forward gamma later)) (returns_forward gamma later)
  = returns_forward gamma (earlier ++ later).
Proof.
  revert later.
  induction earlier as [|[r d] earlier IH] using rev_ind; intros later.
  - reflexivity.
  - rewrite rev_app_distr, <- app_assoc. simpl.
    apply (IH ((r, d) :: later)).
Qed.

Lemma compute_returns_forward (gamma : R) rewards is_terminals :
  length rewards = length is_terminals ->
  compute_returns gamma rewards is_terminals
  = returns_forward gamma (combine rewards is_terminals).
Proof.
  intros Hlen. unfold compute_returns.
  rewrite combine_rev_rev by assumption.
  rewrite <- (app_nil_r (combine rewards is_terminals)) at 2.
  apply (returns_loop_forward gamma (combine rewards is_terminals) []).
Qed.

(** The discounted sum of a whole list, by Horner's rule. *)
Lemma sum_map_scale (c : R) (g : nat -> R) (ks : list nat) :
  sum (map (fun k => c * g k) ks) = c * sum (map g ks).
Proof.
  induction ks as [|k ks IH]; simpl.
  - lra.
  - rewrite IH. lra.
Qed.

Lemma discounted_sum_cons_0 (gamma r : R) (rs : list R) :
  discounted_sum gamma (r :: rs) 0 = r + gamma * discounted_sum gamma rs 0.
Proof.
  unfold discounted_sum. simpl length. rewrite !Nat.sub_0_r.
  rewrite <- cons_seq. simpl map. simpl sum.
  rewrite <- seq_shift, map_map.
  rewrite <- sum_map_scale.
  f_equal; [lra|].
  f_equal. apply map_ext. intros k. rewrite !Nat.sub_0_r. simpl. lra.
Qed.

Lemma discounted_sum_cons_S (gamma r : R) (rs : list R) (t : nat) :
  discounted_sum gamma (r :: rs) (S t) = discounted_sum gamma rs t.
Proof.
  unfold discounted_sum. simpl length. rewrite Nat.sub_succ.
  rewrite <- seq_shift, map_map.
  f_equal.
Qed.

Lemma hd_map_discounted (gamma : R) (rs : list R) :
  hd 0 (map (discounted_sum gamma rs) (seq 0 (length rs))) = discounted_sum gamma rs 0.
Proof. destruct rs; reflexivity. Qed.

Lemma single_episode_tail (d : bool) (ds : list bool) :
  single_episode (d :: ds) -> single_episode ds.
Proof.
  intros H t Ht. apply (H (S t)). simpl. lia.
Qed.

Lemma returns_forward_single_episode (gamma : R) (rewards : list R) :
  forall is_terminals,
    length rewards = length is_terminals ->
    single_episode is_terminals ->
    returns_forward gamma (combine rewards is_terminals)
    = map (discounted_sum gamma rewards) (seq 0 (length rewards)).
Proof.
  induction rewards as [|r rs IH]; intros [|d ds] Hlen Hep;
    simpl in Hlen; try discriminate; [reflexivity|].
  injection Hlen as Hlen.
  simpl combine. simpl returns_forward.
  rewrite (IH ds Hlen (single_episode_tail d ds Hep)).
  simpl length. rewrite <- cons_seq. simpl map.
  rewrite <- seq_shift, map_map.
  rewrite (map_ext _ _ (discounted_sum_cons_S gamma r rs)).
  f_equal.
  rewrite discounted_sum_cons_0, hd_map_discounted.
  destruct d; [|reflexivity].
  (* a terminal flag that is set can only be the last one *)
  destruct rs as [|r' rs'].
  - reflexivity.
  - destruct ds as [|d' ds']; [discriminate|].
    specialize (Hep 0%nat). simpl in Hep.
    discriminate Hep. lia.
Qed.

(** C1.  For a buffer that holds one uninterrupted episode (every terminal
    flag false, the last one possibly excepted; rewards and flags of one
    length), the returns [PPO.update] computes before normalisation are, in
    chronological order, the discounted sums: entry [t] is the sum over
    [k >= t] of [gamma^(k-t) * reward_k].  And for rewards [1,1,1], flags
    [False,False,True] and gamma 0.99 they are [2.9701, 1.99, 1.0]. *)
Theorem returns_are_discounted_sums :
  (forall (gamma : R) (rewards : list R) (is_terminals : list bool),
      length rewards = length is_terminals ->
      single_episode is_terminals ->
      compute_returns gamma rewards is_terminals
      = map (discounted_sum gamma rewards) (seq 0 (length rewards)))
  /\ compute_returns 0.99 [1; 1; 1] [false; false; true] = [2.9701; 1.99; 1.0].
Proof.
  split.
  - intros gamma rewards is_terminals Hlen Hep.
    rewrite compute_returns_forward by assumption.
    now apply returns_forward_single_episode.
  - unfold compute_returns. simpl.
    repeat (f_equal; try lra).
Qed.

(** The scenario of the specification, through the general statement. *)
Lemma returns_are_discounted_sums_witness :
  length [1; 1; 1] = length [false; false; true]
  /\ single_episode [false; false; true]
  /\ compute_returns 0.99 [1; 1; 1] [false; false; true]
     = map (discounted_sum 0.99 [1; 1; 1]) (seq 0 3).
Proof.
  assert (Hep : single_episode [false; false; true]).
  { intros [|[|t]] Ht; simpl in *; try reflexivity; lia. }
  split; [reflexivity|]. split; [exact Hep|].
  exact (proj1 returns_are_discounted_sums 0.99 [1; 1; 1] [false; false; true]
           eq_refl Hep).
Defined.

(** ** The clipped surrogate *)

Lemma clamp_inside (x lo hi : R) : lo <= x <= hi -> clamp x lo hi = x.
Proof.
  intros [Hlo Hhi]. unfold clamp, Rmin, Rmax.
  destruct (Rle_dec x lo); destruct (Rle_dec _ hi); lra.
Qed.

Lemma clamp_above (x lo hi : R) : hi < x -> clamp x lo hi = hi.
Proof.
  intros Hx. unfold clamp, Rmin, Rmax.
  destruct (Rle_dec x lo); destruct (Rle_dec _ hi); lra.
Qed.

Lemma clamp_below (x lo hi : R) : lo <= hi -> x < lo -> clamp x lo hi = lo.
Proof.
  intros Hle Hx. unfold clamp, Rmin, Rmax.
  destruct (Rle_dec x lo); destruct (Rle_dec _ hi); lra.
Qed.

(** The vector [L_CLIP] of [loss_vector] is [surrogate], entry by entry. *)
Lemma L_CLIP_is_surrogate (eps : R) (ratios advantages : list R) :
  map2 Rmin (map2 Rmult ratios advantages)
    (map2 Rmult (map (fun r => clamp r (1 - eps) (1 + eps)) ratios) advantages)
  = map2 (surrogate eps) ratios advantages.
Proof.
  revert advantages.
  induction ratios as [|r rs IH]; intros [|a advs]; try reflexivity.
  unfold map2 in *. simpl. f_equal. apply IH.
Qed.

(** C4, as the code has it.  Inside the band the clipped surrogate is the
    unclipped one, [r * A].  Above the band, with a positive advantage, it
    is the upper boundary value [(1 + eps) * A].  Below the band, with a
    positive advantage (and [eps >= 0]), the minimum keeps the unclipped
    [r * A], which lies strictly under the lower boundary value
    [(1 - eps) * A]. *)
Theorem surrogate_cases (eps r A : R) :
  (1 - eps <= r <= 1 + eps -> surrogate eps r A = r * A)
  /\ (0 < A -> 1 + eps < r -> surrogate eps r A = (1 + eps) * A)
  /\ (0 < A -> 0 <= eps -> r < 1 - eps ->
      surrogate eps r A = r * A /\ r * A < (1 - eps) * A).
Proof.
  unfold surrogate. repeat split.
  - intros H. rewrite clamp_inside by assumption.
    unfold Rmin. destruct (Rle_dec _ _); reflexivity.
  - intros HA Hr. rewrite clamp_above by assumption.
    unfold Rmin. destruct (Rle_dec _ _); [nra|reflexivity].
  - rewrite clamp_below by lra.
    unfold Rmin. destruct (Rle_dec _ _); [reflexivity|nra].
  - nra.
Qed.

(** The three cases at [eps_clip = 0.2], advantage 1. *)
Lemma surrogate_cases_witness :
  (1 - 0.2 <= 1.1 <= 1 + 0.2 /\ surrogate 0.2 1.1 1 = 1.1 * 1)
  /\ (0 < 1 /\ 1 + 0.2 < 2 /\ surrogate 0.2 2 1 = (1 + 0.2) * 1)
  /\ (0 <= 0.2 /\ 0.5 < 1 - 0.2 /\ surrogate 0.2 0.5 1 = 0.5 * 1).
Proof.
  split; [|split].
  - split; [lra|]. apply (proj1 (surrogate_cases 0.2 1.1 1)). lra.
  - split; [lra|]. split; [lra|].
    apply (proj1 (proj2 (surrogate_cases 0.2 2 1))); lra.
  - split; [lra|]. split; [lra|].
    apply (proj2 (proj2 (surrogate_cases 0.2 0.5 1))); lra.
Defined.

(** C4 as stated fails below the band: with [eps_clip = 0.2], ratio 0.5
    and advantage 1 the surrogate is 0.5, neither boundary value. *)
Lemma surrogate_below_band_is_unclipped :
  0.5 < 1 - 0.2 /\ 0 < 1
  /\ surrogate 0.2 0.5 1 = 0.5
  /\ surrogate 0.2 0.5 1 <> (1 - 0.2) * 1
  /\ surrogate 0.2 0.5 1 <> (1 + 0.2) * 1.
Proof.
  assert (H : surrogate 0.2 0.5 1 = 0.5).
  { unfold surrogate. rewrite clamp_below by lra.
    unfold Rmin. destruct (Rle_dec _ _); lra. }
  rewrite H. repeat split; lra.
Qed.

(** ** The loss *)

Lemma length_map2 {A B C} (f : A -> B -> C) (xs : list A) (ys : list B) :
  length xs = length ys -> length (map2 f xs ys) = length xs.
Proof.
  intros H. unfold map2. rewrite length_map, length_combine, H.
  apply Nat.min_id.
Qed.

Lemma length_spec_step_losses (eps : R) (Returns : list R) :
  forall ratios state_values dist_entropy,
    length ratios = length Returns ->
    length state_values = length Returns ->
    length dist_entropy = length Returns ->
    length (spec_step_losses eps Returns ratios state_values dist_entropy)
    = length Returns.
Proof.
  induction Returns as [|G Gs IH]; intros [|r rs] [|v vs] [|e es] H1 H2 H3;
    simpl in *; try discriminate; try reflexivity.
  f_equal. apply IH; congruence.
Qed.

(** The code's vector with an arbitrary scalar [c] in the place of
    [0.5 * MseLoss]: its sum against the sum of the per-step losses. *)
Lemma sum_loss_vector_scalar (eps c : R) (Returns : list R) :
  forall ratios state_values dist_entropy,
    length ratios = length Returns ->
    length state_values = length Returns ->
    length dist_entropy = length Returns ->
    sum (map2 (fun l e => - l + c - 0.01 * e)
           (map2 (surrogate eps) ratios (map2 Rminus Returns state_values))
           dist_entropy)
    = sum (spec_step_losses eps Returns ratios state_values dist_entropy)
      - 0.5 * sum (map2 (fun x y => (x - y) * (x - y)) state_values Returns)
      + INR (length Returns) * c.
Proof.
  induction Returns as [|G Gs IH]; intros [|r rs] [|v vs] [|e es] H1 H2 H3;
    simpl in H1, H2, H3; try discriminate.
  - simpl. lra.
  - injection H1 as H1. injection H2 as H2. injection H3 as H3.
    specialize (IH rs vs es H1 H2 H3).
    change (length (G :: Gs)) with (S (length Gs)). rewrite S_INR.
    unfold map2 in *. simpl. rewrite IH.
    unfold spec_step_loss. lra.
Qed.

(** C7.  On tensors of one length, the scalar the code backpropagates (the
    mean of the vector [- L_CLIP + 0.5 * MseLoss - 0.01 * entropy], the
    scalar mean squared error added to every entry) is the batch average of
    the specification's per-step loss [- surrogate + 0.5 * squared error
    - 0.01 * entropy]. *)
Theorem loss_mean_is_spec_batch_loss
    (eps : R) (Returns ratios state_values dist_entropy : list R) :
  length ratios = length Returns ->
  length state_values = length Returns ->
  length dist_entropy = length Returns ->
  loss_mean eps Returns ratios state_values state_values dist_entropy
  = spec_batch_loss eps Returns ratios state_values dist_entropy.
Proof.
  intros H1 H2 H3.
  assert (La : length (map2 Rminus Returns state_values) = length Returns)
    by (apply length_map2; congruence).
  assert (Ls : length (map2 (surrogate eps) ratios (map2 Rminus Returns state_values))
               = length Returns)
    by (rewrite length_map2; congruence).
  unfold loss_mean, spec_batch_loss, loss_vector, mean.
  rewrite L_CLIP_is_surrogate.
  rewrite sum_loss_vector_scalar by assumption.
  rewrite (length_map2 _ _ dist_entropy) by congruence.
  rewrite Ls, length_spec_step_losses by assumption.
  unfold MseLoss, mean. rewrite length_map2, H2 by congruence.
  destruct Returns as [|G Gs].
  - apply length_zero_iff_nil in H1, H2, H3. subst.
    unfold map2. simpl. lra.
  - assert (Hn : INR (length (G :: Gs)) <> 0)
      by (apply not_0_INR; discriminate).
    field. exact Hn.
Qed.

(** A batch of two steps. *)
Lemma loss_mean_is_spec_batch_loss_witness :
  loss_mean 0.2 [1; -1] [1.5; 0.5] [0.3; 0.1] [0.3; 0.1] [2; 2]
  = spec_batch_loss 0.2 [1; -1] [1.5; 0.5] [0.3; 0.1] [2; 2].
Proof.
  apply (loss_mean_is_spec_batch_loss 0.2 [1; -1] [1.5; 0.5] [0.3; 0.1] [2; 2]);
    reflexivity.
Defined.

(** ** Normalisation *)

Lemma sum_map_affine (m d : R) (xs : list R) :
  sum (map (fun x => (x - m) / d) xs) = (sum xs - INR (length xs) * m) / d.
Proof.
  induction xs as [|x xs IH].
  - simpl. unfold Rdiv. ring.
  - change (length (x :: xs)) with (S (length xs)). rewrite S_INR.
    simpl. rewrite IH. unfold Rdiv. ring.
Qed.

Lemma sum_map_square_scale (d : R) (f : R -> R) (xs : list R) :
  sum (map (fun x => (f x / d) * (f x / d)) xs)
  = sum (map (fun x => f x * f x) xs) / (d * d).
Proof.
  destruct (Req_dec d 0) as [->|Hd].
  - induction xs as [|x xs IH]; simpl.
    + unfold Rdiv. ring.
    + rewrite IH. unfold Rdiv. rewrite Rmult_0_l, Rinv_0. ring.
  - induction xs as [|x xs IH]; simpl.
    + unfold Rdiv. ring.
    + rewrite IH. field. exact Hd.
Qed.

Lemma std_nonneg (xs : list R) : 0 <= std xs.
Proof. apply sqrt_pos. Qed.

Lemma length_normalize (xs : list R) : length (normalize xs) = length xs.
Proof. apply length_map. Qed.

(** The mean after normalisation is 0, in exact arithmetic. *)
Lemma mean_normalize (xs : list R) : mean (normalize xs) = 0.
Proof.
  unfold normalize, mean at 1. rewrite sum_map_affine, length_map.
  destruct xs as [|x xs].
  - simpl. unfold Rdiv. ring.
  - assert (Hn : INR (length (x :: xs)) <> 0)
      by (apply not_0_INR; discriminate).
    pose proof (std_nonneg (x :: xs)).
    unfold mean. field. split; [exact Hn|lra].
Qed.

Lemma var_normalize (xs : list R) :
  var (normalize xs)
  = var xs / ((std xs + 1e-5) * (std xs + 1e-5)).
Proof.
  unfold var at 1. rewrite mean_normalize, length_normalize.
  unfold normalize. rewrite map_map.
  rewrite (map_ext _ (fun x => ((x - mean xs) / (std xs + 1e-5))
                              * ((x - mean xs) / (std xs + 1e-5))))
    by (intros; ring).
  rewrite (sum_map_square_scale (std xs + 1e-5) (fun x => x - mean xs)).
  unfold var, Rdiv. ring.
Qed.

(** The standard deviation after normalisation. *)
Lemma std_normalize (xs : list R) :
  std (normalize xs) = std xs / (std xs + 1e-5).
Proof.
  pose proof (std_nonneg xs) as Hs.
  unfold std at 1. rewrite var_normalize.
  rewrite sqrt_div_alt by nra.
  rewrite sqrt_square by lra.
  reflexivity.
Qed.

Lemma sum_squares_nonneg (m : R) (xs : list R) :
  0 <= sum (map (fun x => (x - m) * (x - m)) xs).
Proof.
  induction xs as [|x xs IH]; simpl; [lra|].
  pose proof (Rle_0_sqr (x - m)) as Hsq. unfold Rsqr in Hsq. lra.
Qed.

Lemma sum_squares_pos (m x : R) (xs : list R) :
  In x xs -> x <> m -> 0 < sum (map (fun x => (x - m) * (x - m)) xs).
Proof.
  intros Hin Hx.
  induction xs as [|y ys IH]; [contradiction|].
  simpl. pose proof (sum_squares_nonneg m ys) as Hys.
  destruct Hin as [->|Hin].
  - assert (Hpos : 0 < (x - m) * (x - m))
      by (apply (Rlt_0_sqr (x - m)); lra).
    lra.
  - specialize (IH Hin).
    pose proof (Rle_0_sqr (y - m)) as Hsq. unfold Rsqr in Hsq. lra.
Qed.

Lemma non_constant_length (xs : list R) :
  non_constant xs -> (2 <= length xs)%nat.
Proof.
  intros (x & y & Hx & Hy & Hxy).
  destruct xs as [|a [|b xs]]; simpl in *; try contradiction; [|lia].
  destruct Hx as [<-|[]], Hy as [<-|[]]. now elim Hxy.
Qed.

(** A sequence that is not constant has a positive standard deviation. *)
Lemma std_pos (xs : list R) : non_constant xs -> 0 < std xs.
Proof.
  intros Hnc. pose proof (non_constant_length xs Hnc) as Hlen.
  destruct Hnc as (x & y & Hx & Hy & Hxy).
  apply sqrt_lt_R0. unfold var.
  assert (Hn : 0 < INR (length xs) - 1).
  { apply le_INR in Hlen. simpl in Hlen. lra. }
  apply Rdiv_lt_0_compat; [|exact Hn].
  destruct (Req_dec x (mean xs)) as [Heq|Hne].
  - apply (sum_squares_pos (mean xs) y xs Hy). congruence.
  - apply (sum_squares_pos (mean xs) x xs Hx Hne).
Qed.

(** C6, as the code has it.  For every return sequence that is not
    constant, read in exact real arithmetic: after the normalisation of
    line 115 the mean is 0, and the standard deviation is [s / (s + 1e-5)]
    where [s > 0] is the standard deviation before.  It lies strictly
    between 0 and 1 and falls short of 1 by [1e-5 / (s + 1e-5)]: close to 1
    only when [s] is large against [1e-5]. *)
Theorem normalize_mean_std (xs : list R) :
  non_constant xs ->
  mean (normalize xs) = 0
  /\ std (normalize xs) = std xs / (std xs + 1e-5)
  /\ 0 < std (normalize xs) < 1
  /\ 1 - std (normalize xs) = 1e-5 / (std xs + 1e-5).
Proof.
  intros Hnc. pose proof (std_pos xs Hnc) as Hs.
  rewrite std_normalize.
  assert (Hd : 0 < std xs + 1e-5) by lra.
  repeat split.
  - apply mean_normalize.
  - apply Rdiv_lt_0_compat; assumption.
  - apply Rmult_lt_reg_r with (std xs + 1e-5); [assumption|].
    unfold Rdiv. rewrite Rmult_assoc, Rinv_l by lra. lra.
  - field. lra.
Qed.

Lemma non_constant_small : non_constant [-1e-5; 0; 1e-5].
Proof.
  exists 0, 1e-5. simpl. repeat split; [tauto|tauto|lra].
Qed.

Lemma std_small : std [-1e-5; 0; 1e-5] = 1e-5.
Proof.
  unfold std.
  replace (var [-1e-5; 0; 1e-5]) with (1e-5 * 1e-5).
  - apply sqrt_square. lra.
  - unfold var, mean. simpl. field.
Qed.

(** The returns [2.9701, 1.99, 1.0] of the specification's scenario. *)
Lemma normalize_mean_std_witness :
  non_constant [2.9701; 1.99; 1.0]
  /\ mean (normalize [2.9701; 1.99; 1.0]) = 0
  /\ 0 < std (normalize [2.9701; 1.99; 1.0]) < 1.
Proof.
  assert (Hnc : non_constant [2.9701; 1.99; 1.0]).
  { exists 1.99, 1.0. simpl. repeat split; [tauto|tauto|lra]. }
  split; [exact Hnc|].
  pose proof (normalize_mean_std [2.9701; 1.99; 1.0] Hnc) as (Hm & _ & Hs & _).
  split; assumption.
Defined.

(** C6 as stated fails on returns of small spread.  Three steps that each
    end an episode, with rewards [-1e-5, 0, 1e-5], give those numbers as
    returns; the sequence is not constant, its standard deviation is
    [1e-5], and after normalisation the standard deviation is one half. *)
Lemma normalize_small_spread :
  compute_returns 0.99 [-1e-5; 0; 1e-5] [true; true; true] = [-1e-5; 0; 1e-5]
  /\ non_constant [-1e-5; 0; 1e-5]
  /\ mean (normalize [-1e-5; 0; 1e-5]) = 0
  /\ std (normalize [-1e-5; 0; 1e-5]) = 0.5
  /\ 0.1 < Rabs (std (normalize [-1e-5; 0; 1e-5]) - 1).
Proof.
  assert (Hs : std (normalize [-1e-5; 0; 1e-5]) = 0.5).
  { rewrite std_normalize, std_small. lra. }
  split; [|split; [|split; [|split]]].
  - unfold compute_returns. simpl. repeat (f_equal; try lra).
  - exact non_constant_small.
  - apply mean_normalize.
  - exact Hs.
  - rewrite Hs. unfold Rabs. destruct (Rcase_abs _); lra.
Qed.

(** ** The policy, the optimizer and the buffer *)

Section Behaviour.
Context {B : Backend} {E : Environment}.

Lemma MultivariateNormal_ok {L : Type} (loc : L) (var : list R) :
  positive_definite var = true -> MultivariateNormal loc var = Ok (loc, var).
Proof. intros H. unfold MultivariateNormal. now rewrite H. Qed.

Lemma MultivariateNormal_inv {L : Type} (loc : L) (var : list R) d :
  MultivariateNormal loc var = Ok d ->
  positive_definite var = true /\ d = (loc, var).
Proof.
  unfold MultivariateNormal. destruct (positive_definite var); [|discriminate].
  intros H. injection H as <-. auto.
Qed.

Lemma positive_definite_zero (n : nat) :
  positive_definite (repeat (0 * 0) (S n)) = false.
Proof.
  simpl. destruct (Rlt_dec 0 (0 * 0)) as [H|H]; [lra|reflexivity].
Qed.

(** *** ActorCritic.act *)

(** The buffer after one call of [act] that sampled [sampled]. *)
Lemma act_inv (self : ActorCritic) (state : tensor) (memory : Memory) (rng : Rng)
    (ret : tensor) (memory' : Memory) (rng' : Rng) :
  act self state memory rng = Ok (ret, memory', rng') ->
  let mean := actor (params self) (data state) in
  let sampled := fst (mvn_sample mean (action_var self) rng) in
  let action := {| data := sampled; requires_grad := false |} in
  let action_logprob :=
    {| data := [mvn_log_prob mean (action_var self) sampled]; requires_grad := true |} in
  positive_definite (action_var self) = true
  /\ ret = detach action
  /\ rng' = snd (mvn_sample mean (action_var self) rng)
  /\ memory' = {| actions := actions memory ++ [action];
                  states := states memory ++ [state];
                  logprobs := logprobs memory ++ [action_logprob];
                  rewards := rewards memory;
                  is_terminals := is_terminals memory |}.
Proof.
  unfold act.
  destruct (MultivariateNormal _ _) as [d|e] eqn:Hd; [|discriminate].
  apply MultivariateNormal_inv in Hd as [Hpd ->]. simpl.
  destruct (mvn_sample _ _ rng) as [sampled r]. simpl.
  intros H. injection H as <- <- <-. auto.
Qed.

Lemma act_ok (self : ActorCritic) (state : tensor) (memory : Memory) (rng : Rng) :
  positive_definite (action_var self) = true ->
  exists ret memory' rng', act self state memory rng = Ok (ret, memory', rng').
Proof.
  intros Hpd. unfold act. rewrite (MultivariateNormal_ok _ _ Hpd). simpl.
  destruct (mvn_sample _ _ rng) as [sampled r]. eauto.
Qed.

Lemma act_err (self : ActorCritic) (state : tensor) (memory : Memory) (rng : Rng) :
  positive_definite (action_var self) = false ->
  act self state memory rng = Err ValueError.
Proof.
  intros Hpd. unfold act, MultivariateNormal. now rewrite Hpd.
Qed.

(** C10.  A call of [ActorCritic.act] returns whenever the covariance is a
    valid one, and every call that returns has appended exactly one element
    to each of [states], [actions] and [logprobs] (the state it was given,
    the sampled action, its log-probability), has left [rewards] and
    [is_terminals] as they were, and returns a tensor with the numbers of
    the action it appended and no gradient tracking. *)
Theorem act_appends_one_step
    (self : ActorCritic) (state : tensor) (memory : Memory) (rng : Rng) :
  (positive_definite (action_var self) = true ->
   exists ret memory' rng', act self state memory rng = Ok (ret, memory', rng'))
  /\ (forall ret memory' rng',
        act self state memory rng = Ok (ret, memory', rng') ->
        exists action action_logprob,
          states memory' = states memory ++ [state]
          /\ actions memory' = actions memory ++ [action]
          /\ logprobs memory' = logprobs memory ++ [action_logprob]
          /\ length (states memory') = S (length (states memory))
          /\ length (actions memory') = S (length (actions memory))
          /\ length (logprobs memory') = S (length (logprobs memory))
          /\ rewards memory' = rewards memory
          /\ is_terminals memory' = is_terminals memory
          /\ data ret = data action
          /\ requires_grad ret = false).
Proof.
  split; [apply act_ok|].
  intros ret memory' rng' H.
  apply act_inv in H. cbv zeta in H. destruct H as (_ & -> & _ & ->).
  eexists _, _. simpl.
  rewrite !length_app. simpl. rewrite !Nat.add_1_r.
  repeat split; reflexivity.
Qed.

(** *** Construction *)

(** C8, as the code has it.  The constructors check nothing: for every
    [action_std], zero and negative ones included, [ActorCritic] and [PPO]
    are built, with [action_std * action_std] as the variance of each
    action dimension, and [PPO] starts with the old snapshot's parameters
    equal to the current ones.  A zero variance is met only later, by
    [MultivariateNormal] inside [act], as a [ValueError]. *)
Theorem construction_checks_nothing
    (state_dim action_dim : nat) (action_std lr : R) (betas : R * R) (gamma : R)
    (K_epochs : nat) (eps_clip : R) (rng : Rng) :
  (exists ac rng',
      ActorCritic_init state_dim action_dim action_std rng = Ok (ac, rng')
      /\ action_var ac = repeat (action_std * action_std) action_dim)
  /\ (exists ppo rng',
        PPO_init state_dim action_dim action_std lr betas gamma K_epochs eps_clip rng
        = Ok (ppo, rng')
        /\ action_var (policy ppo) = repeat (action_std * action_std) action_dim
        /\ action_var (policy_old ppo) = repeat (action_std * action_std) action_dim
        /\ params (policy_old ppo) = params (policy ppo))
  /\ (forall p state memory,
        act {| params := p; action_var := repeat (0 * 0) (S action_dim) |}
            state memory rng
        = Err ValueError).
Proof.
  split; [|split].
  - unfold ActorCritic_init.
    destruct (init_params state_dim action_dim rng) as [p r]. eauto.
  - unfold PPO_init, ActorCritic_init.
    destruct (init_params state_dim action_dim rng) as [p r]. simpl.
    destruct (init_params state_dim action_dim r) as [p' r']. simpl.
    eexists _, _. repeat split.
  - intros p state memory. apply act_err. apply positive_definite_zero.
Qed.

(** *** PPO.update *)

Lemma stack_ok {A : Type} (tensors : list A) :
  tensors <> [] -> stack tensors = Ok tensors.
Proof. destruct tensors; [congruence|reflexivity]. Qed.

Lemma evaluate_ok (self : ActorCritic) (state action : list (list R)) :
  positive_definite (action_var self) = true ->
  exists out, evaluate self state action = Ok out.
Proof.
  intros Hpd. unfold evaluate. rewrite (MultivariateNormal_ok _ _ Hpd). simpl. eauto.
Qed.

Lemma evaluate_err (self : ActorCritic) (state action : list (list R)) :
  positive_definite (action_var self) = false ->
  evaluate self state action = Err ValueError.
Proof.
  intros Hpd. unfold evaluate, MultivariateNormal. now rewrite Hpd.
Qed.

(** The loop calls [evaluate] once per epoch and keeps the last binding. *)
Lemma epochs_ok (self : PPO) (old_states old_actions : list (list R))
    (old_logprobs : list R) out :
  evaluate (policy self) old_states old_actions = Ok out ->
  forall js bound,
    epochs self old_states old_actions old_logprobs js bound
    = (map (EvEvaluate Current) js,
       Ok (fold_left (fun _ j => Some (bound_by j out old_logprobs)) js bound)).
Proof.
  intros Hev. induction js as [|j js IH]; intros bound; [reflexivity|].
  simpl. rewrite Hev. destruct out as [[lp sv] de]. simpl.
  rewrite IH. reflexivity.
Qed.

Lemma epochs_err (self : PPO) (old_states old_actions : list (list R))
    (old_logprobs : list R) (e : error) (j : nat) (js : list nat) bound :
  evaluate (policy self) old_states old_actions = Err e ->
  epochs self old_states old_actions old_logprobs (j :: js) bound
  = ([EvEvaluate Current j], Err e).
Proof. intros Hev. simpl. rewrite Hev. reflexivity. Qed.

Lemma last_binding (f : nat -> locals) (K : nat) (bound : option locals) :
  fold_left (fun _ j => Some (f j)) (seq 0 (S K)) bound = Some (f K).
Proof.
  rewrite seq_S, fold_left_app. reflexivity.
Qed.

(** [update] on a buffer with at least one step, with at least one epoch
    and a valid covariance: the trace and the resulting state. *)
Lemma update_ok (self : PPO) (memory : Memory) :
  states memory <> [] -> actions memory <> [] -> logprobs memory <> [] ->
  (1 <= K_epochs self)%nat ->
  positive_definite (action_var (policy self)) = true ->
  let raw := compute_returns (gamma self) (rewards memory) (is_terminals memory) in
  let old_logprobs := map (fun t => hd 0 (data t)) (logprobs memory) in
  exists log_probs state_values dist_entropy optimizer' p',
    evaluate (policy self) (map data (states memory)) (map data (actions memory))
    = Ok (log_probs, state_values, dist_entropy)
    /\ adam_step (optimizer self) (params (policy self))
         (backward
            (objective self (normalize raw) (map data (states memory))
               (map data (actions memory)) old_logprobs state_values)
            (params (policy self)))
       = (optimizer', p')
    /\ update self memory
       = (complete_trace raw (K_epochs self)
            (loss_mean (eps_clip self) (normalize raw)
               (map2 (fun lp olp => exp (lp - olp)) log_probs old_logprobs)
               state_values state_values dist_entropy),
          Ok ({| lr := lr self; betas := betas self; gamma := gamma self;
                 eps_clip := eps_clip self; K_epochs := K_epochs self;
                 policy := load_state_dict (policy self) p';
                 optimizer := optimizer';
                 policy_old := load_state_dict (policy_old self) p' |},
              memory)).
Proof.
  intros Hs Ha Hl HK Hpd raw old_logprobs.
  destruct (evaluate_ok (policy self) (map data (states memory))
              (map data (actions memory)) Hpd) as [[[lp sv] de] Hev].
  unfold update. fold raw.
  rewrite (stack_ok (map data (states memory)))
    by (destruct (states memory); [congruence|discriminate]).
  rewrite (stack_ok (map data (actions memory)))
    by (destruct (actions memory); [congruence|discriminate]).
  rewrite (stack_ok (map (fun t => hd 0 (data t)) (logprobs memory)))
    by (destruct (logprobs memory); [congruence|discriminate]).
  fold old_logprobs.
  destruct (K_epochs self) as [|K] eqn:HKe; [lia|].
  unfold bind at 1 2 3 4 5. unfold tell at 1, lift. cbv iota beta.
  rewrite (epochs_ok self _ _ old_logprobs _ Hev).
  rewrite last_binding. cbn [bound_by].
  destruct (adam_step _ _ _) as [optimizer' p'] eqn:Hadam.
  exists lp, sv, de, optimizer', p'. split; [exact Hev|]. split; [exact Hadam|].
  unfold complete_trace, loss_mean. cbn.
  rewrite Nat.sub_0_r. reflexivity.
Qed.

(** A call of [update] that returns has met a buffer with at least one
    step, at least one epoch and a valid covariance. *)
Lemma update_inv (self : PPO) (memory : Memory) tr ppo' memory' :
  update self memory = (tr, Ok (ppo', memory')) ->
  states memory <> [] /\ actions memory <> [] /\ logprobs memory <> []
  /\ (1 <= K_epochs self)%nat
  /\ positive_definite (action_var (policy self)) = true.
Proof.
  unfold update.
  destruct (states memory) as [|s ss]; [discriminate|].
  destruct (actions memory) as [|a aa]; [discriminate|].
  destruct (logprobs memory) as [|l ll]; [discriminate|].
  destruct (K_epochs self) as [|K]; [discriminate|].
  destruct (positive_definite (action_var (policy self))) eqn:Hpd.
  - intros _. repeat split; try discriminate. lia.
  - unfold bind at 1 2 3 4 5. unfold tell at 1, lift. cbv iota beta.
    change (seq 0 (S K)) with (0%nat :: seq 1 K). cbn [stack map].
    rewrite (epochs_err self _ _ _ _ _ _ _ (evaluate_err _ _ _ Hpd)).
    discriminate.
Qed.

Lemma filter_evaluate_map (js : list nat) :
  filter is_evaluate (map (EvEvaluate Current) js) = map (EvEvaluate Current) js
  /\ filter is_backward (map (EvEvaluate Current) js) = []
  /\ filter is_step (map (EvEvaluate Current) js) = [].
Proof.
  induction js as [|j js (IH1 & IH2 & IH3)]; simpl; [auto|].
  rewrite IH1. auto.
Qed.

Lemma filter_complete_trace (Returns : list R) (K : nat) (loss : R) :
  filter is_evaluate (complete_trace Returns K loss) = map (EvEvaluate Current) (seq 0 K)
  /\ filter is_backward (complete_trace Returns K loss) = [EvBackward (K - 1) loss]
  /\ filter is_step (complete_trace Returns K loss) = [EvStep].
Proof.
  destruct (filter_evaluate_map (seq 0 K)) as (H1 & H2 & H3).
  unfold complete_trace. rewrite !filter_app, H1, H2, H3. simpl.
  rewrite app_nil_r. auto.
Qed.

Lemma load_state_dict_same (self : ActorCritic) :
  load_state_dict self (params self) = self.
Proof. destruct self. reflexivity. Qed.

(** What [backward] differentiates, spelled out: at parameters [p] it is
    the loss of line 133-137 computed from what [evaluate] returns at [p],
    with the normalised returns, the stored log-probabilities and the
    detached state values held fixed. *)
Lemma objective_unfold (self : PPO) (Returns : list R)
    (old_states old_actions : list (list R)) (old_logprobs detached_values : list R)
    (p : Params) log_probs state_values dist_entropy :
  evaluate (load_state_dict (policy self) p) old_states old_actions
  = Ok (log_probs, state_values, dist_entropy) ->
  objective self Returns old_states old_actions old_logprobs detached_values p
  = loss_mean (eps_clip self) Returns
      (map2 (fun lp olp => exp (lp - olp)) log_probs old_logprobs)
      state_values detached_values dist_entropy.
Proof. intros H. unfold objective. rewrite H. reflexivity. Qed.

(** C2.  On a buffer with at least one step (and at least one epoch, a
    valid covariance), one call of [update] returns; it calls [evaluate] on
    the current policy exactly [K_epochs] times, once per epoch; it runs
    exactly one backward pass, on the graph of the last epoch (epoch
    [K_epochs - 1]), and one optimizer step.  With two steps or more (so
    that the standard deviation of line 115 is a number): the loss of that
    backward pass is built from the log-probabilities, state values and
    entropies of the last epoch's [evaluate]; the function that is
    differentiated is that same loss as a function of the parameters, with
    the last epoch's state values detached, and its value at the current
    parameters is the loss; and the new parameters are Adam's step along
    its gradient. *)
Theorem update_evaluates_each_epoch_steps_once (self : PPO) (memory : Memory) :
  consistent memory -> actions memory <> [] ->
  (1 <= K_epochs self)%nat ->
  positive_definite (action_var (policy self)) = true ->
  let Returns :=
    normalize (compute_returns (gamma self) (rewards memory) (is_terminals memory)) in
  let old_states := map data (states memory) in
  let old_actions := map data (actions memory) in
  let old_logprobs := map (fun t => hd 0 (data t)) (logprobs memory) in
  exists tr ppo' log_probs state_values dist_entropy loss,
    update self memory = (tr, Ok (ppo', memory))
    /\ evaluate (policy self) old_states old_actions
       = Ok (log_probs, state_values, dist_entropy)
    /\ filter is_evaluate tr = map (EvEvaluate Current) (seq 0 (K_epochs self))
    /\ length (filter is_evaluate tr) = K_epochs self
    /\ filter is_backward tr = [EvBackward (K_epochs self - 1) loss]
    /\ filter is_step tr = [EvStep]
    /\ ((2 <= length (actions memory))%nat ->
        loss = loss_mean (eps_clip self) Returns
                 (map2 (fun lp olp => exp (lp - olp)) log_probs old_logprobs)
                 state_values state_values dist_entropy
        /\ objective self Returns old_states old_actions old_logprobs state_values
             (params (policy self))
           = loss
        /\ (forall p log_probs' state_values' dist_entropy',
              evaluate (load_state_dict (policy self) p) old_states old_actions
              = Ok (log_probs', state_values', dist_entropy') ->
              objective self Returns old_states old_actions old_logprobs state_values p
              = loss_mean (eps_clip self) Returns
                  (map2 (fun lp olp => exp (lp - olp)) log_probs' old_logprobs)
                  state_values' state_values dist_entropy')
        /\ params (policy ppo')
           = snd (adam_step (optimizer self) (params (policy self))
                    (backward
                       (objective self Returns old_states old_actions old_logprobs
                          state_values)
                       (params (policy self))))).
Proof.
  intros (Hs & Hl & _ & _) Ha HK Hpd Returns old_states old_actions old_logprobs.
  assert (Hs' : states memory <> [])
    by (destruct (states memory), (actions memory); simpl in *; congruence).
  assert (Hl' : logprobs memory <> [])
    by (destruct (logprobs memory), (actions memory); simpl in *; congruence).
  destruct (update_ok self memory Hs' Ha Hl' HK Hpd)
    as (lp & sv & de & opt' & p' & Hev & Hadam & Hup).
  destruct (filter_complete_trace
              (compute_returns (gamma self) (rewards memory) (is_terminals memory))
              (K_epochs self)
              (loss_mean (eps_clip self) Returns
                 (map2 (fun lp olp => exp (lp - olp)) lp old_logprobs) sv sv de))
    as (F1 & F2 & F3).
  pose proof (f_equal (@length event) F1) as Flen.
  rewrite length_map, length_seq in Flen.
  eexists _, _, lp, sv, de, _.
  split; [exact Hup|]. split; [exact Hev|]. split; [exact F1|].
  split; [exact Flen|].
  split; [exact F2|]. split; [exact F3|].
  intros _. split; [reflexivity|]. split; [|split].
  - apply objective_unfold. rewrite load_state_dict_same. exact Hev.
  - intros p lp' sv' de' Hev'. now apply objective_unfold.
  - simpl. unfold Returns, old_states, old_actions, old_logprobs.
    rewrite Hadam. reflexivity.
Qed.

(** With no epoch the loop binds nothing, and line 130 reads
    [state_values] unbound: no backward pass, no step. *)
Lemma update_no_epoch (self : PPO) (memory : Memory) :
  states memory <> [] -> actions memory <> [] -> logprobs memory <> [] ->
  K_epochs self = 0%nat ->
  update self memory
  = ([EvReduce (compute_returns (gamma self) (rewards memory) (is_terminals memory))],
     Err UnboundLocalError).
Proof.
  intros Hs Ha Hl HK. unfold update. rewrite HK.
  destruct (states memory); [congruence|].
  destruct (actions memory); [congruence|].
  destruct (logprobs memory); [congruence|].
  reflexivity.
Qed.

Lemma update_result (self : PPO) (memory : Memory) tr ppo' memory' :
  update self memory = (tr, Ok (ppo', memory')) ->
  memory' = memory
  /\ params (policy_old ppo') = params (policy ppo')
  /\ action_var (policy ppo') = action_var (policy self)
  /\ action_var (policy_old ppo') = action_var (policy_old self).
Proof.
  intros H. destruct (update_inv self memory _ _ _ H) as (Hs & Ha & Hl & HK & Hpd).
  destruct (update_ok self memory Hs Ha Hl HK Hpd)
    as (lp & sv & de & opt' & p' & _ & _ & Hup).
  rewrite Hup in H. injection H as _ <- <-. auto.
Qed.

(** *** Collection *)

Lemma action_selection_inv (self : PPO) (state : list R) (memory : Memory) (rng : Rng)
    action memory' rng' :
  action_selection self state memory rng = Ok (action, memory', rng') ->
  positive_definite (action_var (policy_old self)) = true
  /\ action = fst (mvn_sample (actor (params (policy_old self)) state)
                     (action_var (policy_old self)) rng).
Proof.
  unfold action_selection.
  destruct (act _ _ _ _) as [[[ret m] r]|e] eqn:Hact; [|discriminate].
  simpl. intros H. injection H as <- <- <-.
  apply act_inv in Hact. cbv zeta in Hact.
  destruct Hact as (Hpd & -> & _ & _). auto.
Qed.

Lemma collect_step_inv (w w' : World) :
  collect_step w = Ok w' -> ppo w' = ppo w.
Proof.
  unfold collect_step.
  destruct (action_selection _ _ _ _) as [[[a m] r]|e]; [|discriminate].
  simpl. destruct (env_step (env w) a) as [[[s rew] d] e'].
  intros H. injection H as <-. reflexivity.
Qed.

Lemma collect_step_ok (w : World) :
  positive_definite (action_var (policy_old (ppo w))) = true ->
  exists w', collect_step w = Ok w'.
Proof.
  intros Hpd. unfold collect_step, action_selection.
  destruct (act_ok (policy_old (ppo w))
              {| data := state w; requires_grad := false |} (memory w) (rng w) Hpd)
    as (ret & m & r & ->).
  simpl. destruct (env_step (env w) (data ret)) as [[[s rew] d] e']. eauto.
Qed.

Lemma collect_inv (n : nat) : forall w w', collect n w = Ok w' -> ppo w' = ppo w.
Proof.
  induction n as [|n IH]; intros w w'; simpl.
  - intros H. injection H as <-. reflexivity.
  - destruct (collect_step w) as [w1|e] eqn:H1; [|discriminate].
    simpl. intros H. rewrite (IH _ _ H). now apply collect_step_inv.
Qed.

Lemma collect_ok (n : nat) : forall w,
  positive_definite (action_var (policy_old (ppo w))) = true ->
  exists w', collect n w = Ok w'.
Proof.
  induction n as [|n IH]; intros w Hpd; simpl; [eauto|].
  destruct (collect_step_ok w Hpd) as [w1 H1]. rewrite H1. simpl.
  apply IH. now rewrite (collect_step_inv _ _ H1).
Qed.

(** C3.  A collection phase of any number of steps leaves the optimizer
    object, hence the old snapshot and its parameters, as it found them;
    [action_selection] samples from the distribution the old snapshot
    gives, and its result does not depend on the current snapshot; and
    when [update] returns, the old snapshot's parameters are the current
    snapshot's. *)
Theorem old_snapshot_protocol :
  (forall n (w w' : World),
      collect n w = Ok w' ->
      params (policy_old (ppo w')) = params (policy_old (ppo w)))
  /\ (forall (self : PPO) state memory rng action memory' rng',
        action_selection self state memory rng = Ok (action, memory', rng') ->
        action = fst (mvn_sample (actor (params (policy_old self)) state)
                        (action_var (policy_old self)) rng))
  /\ (forall (self self' : PPO) state memory rng,
        policy_old self = policy_old self' ->
        action_selection self state memory rng
        = action_selection self' state memory rng)
  /\ (forall (self : PPO) memory tr ppo' memory',
        update self memory = (tr, Ok (ppo', memory')) ->
        params (policy_old ppo') = params (policy ppo')).
Proof.
  split; [|split; [|split]].
  - intros n w w' H. now rewrite (collect_inv n w w' H).
  - intros self state memory rng action memory' rng' H.
    now apply action_selection_inv in H.
  - intros self self' state memory rng H. unfold action_selection. now rewrite H.
  - intros self memory tr ppo' memory' H.
    now apply update_result in H.
Qed.

(** *** The buffer around [update] *)

Lemma collect_step_time (w w' : World) :
  collect_step w = Ok w' -> time_step w' = time_step w.
Proof.
  unfold collect_step.
  destruct (action_selection _ _ _ _) as [[[a m] r]|e]; [|discriminate].
  simpl. destruct (env_step (env w) a) as [[[s rew] d] e'].
  intros H. injection H as <-. reflexivity.
Qed.

Lemma update_and_clear_empties (w : World) tr w' :
  update_and_clear w = (tr, Ok w') -> memory w' = Memory_init.
Proof.
  unfold update_and_clear.
  destruct (update (ppo w) (memory w)) as [tr0 [[p m]|e]]; simpl;
    [|discriminate].
  intros H. injection H as _ <-. reflexivity.
Qed.

(** C5, as the code has it.  [update] does not touch the buffer: when it
    returns, the buffer is the one it was given.  It is the training loop
    that empties it, by calling [clear_memory] right after [update]
    (lines 192-193); after that pair, and so after every pass of the loop
    in which the update was due, all five sequences have length 0. *)
Theorem update_leaves_buffer_loop_clears_it :
  (forall (self : PPO) memory tr ppo' memory',
      update self memory = (tr, Ok (ppo', memory')) -> memory' = memory)
  /\ (forall (w : World) tr w',
        update_and_clear w = (tr, Ok w') ->
        length (states (memory w')) = 0%nat
        /\ length (actions (memory w')) = 0%nat
        /\ length (logprobs (memory w')) = 0%nat
        /\ length (rewards (memory w')) = 0%nat
        /\ length (is_terminals (memory w')) = 0%nat)
  /\ (forall (update_timestep : nat) (w : World) tr w',
        ((time_step w + 1) mod update_timestep = 0)%nat ->
        timestep update_timestep w = (tr, Ok w') ->
        length (states (memory w')) = 0%nat
        /\ length (actions (memory w')) = 0%nat
        /\ length (logprobs (memory w')) = 0%nat
        /\ length (rewards (memory w')) = 0%nat
        /\ length (is_terminals (memory w')) = 0%nat).
Proof.
  split; [|split].
  - intros self memory tr ppo' memory' H. now apply update_result in H.
  - intros w tr w' H. apply update_and_clear_empties in H. rewrite H. auto.
  - intros u w tr w' Hdue. unfold timestep, lift, bind.
    destruct (collect_step _) as [w1|e] eqn:H1; [|discriminate].
    rewrite (collect_step_time _ _ H1). cbn [time_step].
    rewrite Hdue. cbn [Nat.eqb].
    destruct (update_and_clear w1) as [tr1 [w2|e]] eqn:H2; [|discriminate].
    intros H. injection H as _ <-.
    apply update_and_clear_empties in H2. rewrite H2. auto.
Qed.

Lemma update_and_clear_ok (w : World) :
  states (memory w) <> [] -> actions (memory w) <> [] -> logprobs (memory w) <> [] ->
  (1 <= K_epochs (ppo w))%nat ->
  positive_definite (action_var (policy (ppo w))) = true ->
  exists tr w', update_and_clear w = (tr, Ok w').
Proof.
  intros Hs Ha Hl HK Hpd.
  destruct (update_ok (ppo w) (memory w) Hs Ha Hl HK Hpd)
    as (lp & sv & de & opt' & p' & _ & _ & Hup).
  unfold update_and_clear. rewrite Hup. simpl. eauto.
Qed.

(** *** The empty buffer *)

(** C9, as the code has it.  On a buffer whose five sequences are empty,
    [update] has no guard: it runs the mean and standard-deviation
    reduction of line 115 over the empty return sequence, and then
    [torch.stack] on the empty list of states raises a [RuntimeError].  No
    epoch runs and no gradient step is taken. *)
Theorem update_on_empty_buffer (self : PPO) (memory : Memory) :
  length (states memory) = 0%nat -> length (actions memory) = 0%nat ->
  length (logprobs memory) = 0%nat -> length (rewards memory) = 0%nat ->
  length (is_terminals memory) = 0%nat ->
  update self memory = ([EvReduce []], Err RuntimeError).
Proof.
  intros Hs Ha Hl Hr Ht.
  apply length_zero_iff_nil in Hs, Ha, Hl, Hr, Ht.
  unfold update. rewrite Hs, Ha, Hl, Hr, Ht. reflexivity.
Qed.

End Behaviour.

(** ** The statements above, on the small backend *)

Import Toy.

Lemma toy_positive_definite : positive_definite [0.5 * 0.5] = true.
Proof.
  simpl. destruct (Rlt_dec 0 (0.5 * 0.5)) as [H|H]; [reflexivity|lra].
Qed.

Lemma toy_consistent : consistent Toy.memory3.
Proof. repeat split. Qed.

(** One call of [act] on the empty buffer. *)
Lemma act_appends_one_step_witness :
  positive_definite (action_var Toy.policy0) = true
  /\ exists ret memory' rng',
       act Toy.policy0 (Toy.step_tensor 0) Memory_init 0%nat = Ok (ret, memory', rng')
       /\ length (states memory') = 1%nat
       /\ length (actions memory') = 1%nat
       /\ length (logprobs memory') = 1%nat
       /\ rewards memory' = []
       /\ is_terminals memory' = []
       /\ requires_grad ret = false.
Proof.
  split; [exact toy_positive_definite|].
  destruct (proj1 (act_appends_one_step Toy.policy0 (Toy.step_tensor 0) Memory_init 0%nat)
              toy_positive_definite) as (ret & memory' & rng' & H).
  exists ret, memory', rng'. split; [exact H|].
  destruct (proj2 (act_appends_one_step Toy.policy0 (Toy.step_tensor 0) Memory_init 0%nat)
              ret memory' rng' H)
    as (a & lp & _ & _ & _ & H1 & H2 & H3 & H4 & H5 & _ & H6).
  repeat split; assumption.
Defined.

(** C8 as stated fails: with [action_std = 0] the variance is 0, and both
    constructors return normally. *)
Lemma zero_variance_is_constructed :
  0 * 0 <= 0
  /\ (exists ac rng',
        ActorCritic_init (B := Toy.backend) 2 1 0 0%nat = Ok (ac, rng')
        /\ action_var ac = [0 * 0])
  /\ (exists ppo rng',
        PPO_init (B := Toy.backend) 2 1 0 Hyper.lr Hyper.betas Hyper.gamma
          Hyper.K_epochs Hyper.eps_clip 0%nat
        = Ok (ppo, rng')
        /\ action_var (policy ppo) = [0 * 0]).
Proof.
  split; [lra|]. split.
  - eexists _, _. split; reflexivity.
  - eexists _, _. split; reflexivity.
Qed.

(** Two epochs over the three-step buffer. *)
Lemma update_evaluates_each_epoch_steps_once_witness :
  consistent Toy.memory3
  /\ (1 <= K_epochs (Toy.ppo0 2))%nat
  /\ (2 <= length (actions Toy.memory3))%nat
  /\ exists tr ppo' log_probs state_values dist_entropy loss,
       update (Toy.ppo0 2) Toy.memory3 = (tr, Ok (ppo', Toy.memory3))
       /\ evaluate (policy (Toy.ppo0 2)) (map data (states Toy.memory3))
            (map data (actions Toy.memory3))
          = Ok (log_probs, state_values, dist_entropy)
       /\ filter is_evaluate tr = [EvEvaluate Current 0; EvEvaluate Current 1]
       /\ filter is_backward tr = [EvBackward 1 loss]
       /\ filter is_step tr = [EvStep]
       /\ objective (Toy.ppo0 2)
            (normalize (compute_returns (gamma (Toy.ppo0 2)) (rewards Toy.memory3)
                          (is_terminals Toy.memory3)))
            (map data (states Toy.memory3)) (map data (actions Toy.memory3))
            (map (fun t => hd 0 (data t)) (logprobs Toy.memory3))
            state_values (params (policy (Toy.ppo0 2)))
          = loss.
Proof.
  split; [exact toy_consistent|]. split; [simpl; lia|]. split; [simpl; lia|].
  destruct (update_evaluates_each_epoch_steps_once (Toy.ppo0 2) Toy.memory3
              toy_consistent ltac:(discriminate) ltac:(simpl; lia)
              toy_positive_definite)
    as (tr & ppo' & lp & sv & de & loss & Hup & Hev & Hevs & _ & Hb & Hstep & Hval).
  destruct (Hval ltac:(simpl; lia)) as (_ & Hobj & _ & _).
  exists tr, ppo', lp, sv, de, loss.
  split; [exact Hup|]. split; [exact Hev|]. split; [exact Hevs|].
  split; [exact Hb|]. split; [exact Hstep|exact Hobj].
Defined.

(** Three steps of collection, then an update. *)
Lemma old_snapshot_protocol_witness :
  (exists w',
      collect 3 (Toy.world0 1) = Ok w'
      /\ params (policy_old (ppo w')) = params (policy_old (ppo (Toy.world0 1))))
  /\ (exists tr ppo' memory',
        update (Toy.ppo0 1) Toy.memory3 = (tr, Ok (ppo', memory'))
        /\ params (policy_old ppo') = params (policy ppo')).
Proof.
  split.
  - destruct (collect_ok 3 (Toy.world0 1) toy_positive_definite) as [w' H].
    exists w'. split; [exact H|].
    exact (proj1 old_snapshot_protocol 3%nat (Toy.world0 1) w' H).
  - destruct (update_ok (Toy.ppo0 1) Toy.memory3
                ltac:(discriminate) ltac:(discriminate) ltac:(discriminate)
                ltac:(simpl; lia) toy_positive_definite)
      as (lp & sv & de & opt' & p' & _ & _ & Hup).
    eexists _, _, _. split; [exact Hup|].
    exact (proj2 (proj2 (proj2 old_snapshot_protocol)) _ _ _ _ _ Hup).
Defined.

(** C5 as stated fails: [update] returns on the three-step buffer and the
    five sequences still hold three elements each. *)
Lemma update_leaves_three_steps :
  exists tr ppo' memory',
    update (Toy.ppo0 1) Toy.memory3 = (tr, Ok (ppo', memory'))
    /\ length (states memory') = 3%nat
    /\ length (actions memory') = 3%nat
    /\ length (logprobs memory') = 3%nat
    /\ length (rewards memory') = 3%nat
    /\ length (is_terminals memory') = 3%nat.
Proof.
  destruct (update_ok (Toy.ppo0 1) Toy.memory3
              ltac:(discriminate) ltac:(discriminate) ltac:(discriminate)
              ltac:(simpl; lia) toy_positive_definite)
    as (lp & sv & de & opt' & p' & _ & _ & Hup).
  eexists _, _, _. split; [exact Hup|]. repeat split.
Qed.

(** The update of the three-step buffer, and the loop's update-and-clear
    on a world that holds it. *)
Lemma update_leaves_buffer_loop_clears_it_witness :
  (exists tr ppo' memory',
      update (Toy.ppo0 1) Toy.memory3 = (tr, Ok (ppo', memory'))
      /\ memory' = Toy.memory3)
  /\ (exists tr w',
        update_and_clear Toy.world3 = (tr, Ok w')
        /\ length (states (memory w')) = 0%nat
        /\ length (rewards (memory w')) = 0%nat).
Proof.
  split.
  - destruct (update_ok (Toy.ppo0 1) Toy.memory3
                ltac:(discriminate) ltac:(discriminate) ltac:(discriminate)
                ltac:(simpl; lia) toy_positive_definite)
      as (lp & sv & de & opt' & p' & _ & _ & Hup).
    eexists _, _, _. split; [exact Hup|].
    exact (proj1 update_leaves_buffer_loop_clears_it _ _ _ _ _ Hup).
  - destruct (update_and_clear_ok Toy.world3
                ltac:(discriminate) ltac:(discriminate) ltac:(discriminate)
                ltac:(simpl; lia) toy_positive_definite)
      as (tr & w' & H).
    exists tr, w'. split; [exact H|].
    destruct (proj1 (proj2 update_leaves_buffer_loop_clears_it) _ _ _ H)
      as (H1 & _ & _ & H4 & _).
    auto.
Defined.

(** The freshly created buffer. *)
Lemma update_on_empty_buffer_witness :
  update (Toy.ppo0 Hyper.K_epochs) Memory_init = ([EvReduce []], Err RuntimeError).
Proof.
  exact (update_on_empty_buffer (Toy.ppo0 Hyper.K_epochs) Memory_init
           eq_refl eq_refl eq_refl eq_refl eq_refl).
Defined.

(** C9 as stated fails: on the empty buffer [update] raises, the exception
    is not [EmptyBufferError], and the reduction over the empty return
    sequence has been run. *)
Lemma update_reduces_empty_returns :
  exists tr e,
    update (Toy.ppo0 Hyper.K_epochs) Memory_init = (tr, Err e)
    /\ e <> EmptyBufferError
    /\ In (EvReduce []) tr.
Proof.
  exists [EvReduce []], RuntimeError.
  split; [reflexivity|]. split; [discriminate|]. simpl. auto.
Qed.

(** * Further properties of the code *)

(** ** Returns over several episodes *)

Lemma length_returns_forward (gamma : R) (steps : list (R * bool)) :
  length (returns_forward gamma steps) = length steps.
Proof.
  induction steps as [|[r d] steps IH]; simpl; [reflexivity|]. now rewrite IH.
Qed.

Lemma nth_returns_forward (gamma : R) (steps : list (R * bool)) :
  forall t, (t < length steps)%nat ->
    nth t (returns_forward gamma steps) 0
    = fst (nth t steps (0, false))
      + gamma * (if snd (nth t steps (0, false)) then 0
                 else nth (S t) (returns_forward gamma steps) 0).
Proof.
  induction steps as [|[r d] steps IH]; intros t Ht; simpl in Ht; [lia|].
  destruct t as [|t].
  - simpl. destruct (returns_forward gamma steps); reflexivity.
  - simpl returns_forward.
    change (nth (S t) (?x :: ?l) 0) with (nth t l 0).
    change (nth (S (S t)) (?x :: ?l) 0) with (nth (S t) l 0).
    change (nth (S t) ((r, d) :: steps) (0, false)) with (nth t steps (0, false)).
    apply IH. lia.
Qed.

Lemma nth_combine {A C : Type} (xs : list A) (ys : list C) (a : A) (c : C) :
  length xs = length ys ->
  forall t, nth t (combine xs ys) (a, c) = (nth t xs a, nth t ys c).
Proof.
  revert ys. induction xs as [|x xs IH]; intros [|y ys] H t; simpl in H;
    try discriminate.
  - destruct t; reflexivity.
  - destruct t as [|t]; [reflexivity|]. simpl. apply IH. congruence.
Qed.

(** X1.  For rewards and flags of one length, whatever the flags: there is
    one return per step, and the return of step [t] is its reward plus
    [gamma] times the return of step [t + 1], the latter counted as 0 when
    step [t] is terminal or the last one.  A terminal step's return is its
    own reward. *)
Theorem returns_recurrence (gamma : R) (rewards : list R) (is_terminals : list bool) :
  length rewards = length is_terminals ->
  length (compute_returns gamma rewards is_terminals) = length rewards
  /\ forall t, (t < length rewards)%nat ->
       nth t (compute_returns gamma rewards is_terminals) 0
       = nth t rewards 0
         + gamma * (if nth t is_terminals false then 0
                    else nth (S t) (compute_returns gamma rewards is_terminals) 0).
Proof.
  intros Hlen. rewrite compute_returns_forward by assumption.
  split.
  - rewrite length_returns_forward, length_combine, <- Hlen. apply Nat.min_id.
  - intros t Ht.
    rewrite nth_returns_forward
      by (rewrite length_combine, <- Hlen, Nat.min_id; exact Ht).
    rewrite (nth_combine rewards is_terminals 0 false Hlen). reflexivity.
Qed.

(** Two episodes of two steps. *)
Lemma returns_recurrence_witness :
  length (compute_returns 0.5 [1; 2; 3; 4] [false; true; false; true]) = 4%nat
  /\ nth 1 (compute_returns 0.5 [1; 2; 3; 4] [false; true; false; true]) 0
     = 2 + 0.5 * 0.
Proof.
  destruct (returns_recurrence 0.5 [1; 2; 3; 4] [false; true; false; true] eq_refl)
    as [Hl Hn].
  split; [exact Hl|].
  exact (Hn 1%nat ltac:(simpl; lia)).
Defined.

Lemma combine_app_same {A C : Type} (xs1 xs2 : list A) (ys1 ys2 : list C) :
  length xs1 = length ys1 ->
  combine (xs1 ++ xs2) (ys1 ++ ys2) = combine xs1 ys1 ++ combine xs2 ys2.
Proof.
  revert ys1. induction xs1 as [|x xs1 IH]; intros [|y ys1] H; simpl in H;
    try discriminate; [reflexivity|].
  simpl. f_equal. apply IH. congruence.
Qed.

Lemma returns_forward_skip (gamma : R) (earlier later : list (R * bool)) :
  skipn (length earlier) (returns_forward gamma (earlier ++ later))
  = returns_forward gamma later.
Proof.
  induction earlier as [|[r d] earlier IH]; [reflexivity|].
  simpl. exact IH.
Qed.

Lemma returns_forward_cons (gamma r : R) (d : bool) (steps : list (R * bool)) :
  returns_forward gamma ((r, d) :: steps)
  = (r + gamma * (if d then 0 else hd 0 (returns_forward gamma steps)))
    :: returns_forward gamma steps.
Proof. reflexivity. Qed.

Lemma returns_forward_cut (gamma : R) (later : list (R * bool)) :
  forall earlier,
    snd (last earlier (0, false)) = true ->
    returns_forward gamma (earlier ++ later)
    = returns_forward gamma earlier ++ returns_forward gamma later.
Proof.
  induction earlier as [|[r d] earlier IH]; intros Hlast; [discriminate|].
  destruct earlier as [|step earlier].
  - simpl in Hlast. subst d. reflexivity.
  - specialize (IH Hlast).
    rewrite <- app_comm_cons, !returns_forward_cons, IH.
    destruct step as [r' d']. rewrite (returns_forward_cons gamma r' d' earlier).
    reflexivity.
Qed.

Lemma last_combine (rewards : list R) :
  forall is_terminals,
    length rewards = length is_terminals ->
    snd (last (combine rewards is_terminals) (0, false)) = last is_terminals false.
Proof.
  induction rewards as [|r rs IH]; intros [|d ds] H; simpl in H; try discriminate;
    [reflexivity|].
  destruct rs as [|r' rs], ds as [|d' ds]; simpl in H; try discriminate;
    [reflexivity|].
  apply (IH (d' :: ds)). simpl. congruence.
Qed.

(** X2.  A terminal flag cuts the buffer: when the earlier part ends on a
    terminal step, the returns of the whole buffer are the returns of the
    earlier part, computed on its own, followed by those of the later
    part.  Nothing after a terminal step enters the returns up to it. *)
Theorem returns_cut_at_terminal (gamma : R)
    (rewards1 rewards2 : list R) (is_terminals1 is_terminals2 : list bool) :
  length rewards1 = length is_terminals1 ->
  length rewards2 = length is_terminals2 ->
  last is_terminals1 false = true ->
  compute_returns gamma (rewards1 ++ rewards2) (is_terminals1 ++ is_terminals2)
  = compute_returns gamma rewards1 is_terminals1
    ++ compute_returns gamma rewards2 is_terminals2.
Proof.
  intros H1 H2 Hlast.
  rewrite !compute_returns_forward
    by (rewrite ?length_app; congruence).
  rewrite combine_app_same by assumption.
  apply returns_forward_cut.
  now rewrite last_combine.
Qed.

Lemma returns_cut_at_terminal_witness :
  compute_returns 0.5 ([1; 2] ++ [3; 4]) ([false; true] ++ [false; true])
  = compute_returns 0.5 [1; 2] [false; true] ++ compute_returns 0.5 [3; 4] [false; true].
Proof.
  exact (returns_cut_at_terminal 0.5 [1; 2] [3; 4] [false; true] [false; true]
           eq_refl eq_refl eq_refl).
Defined.

(** X3.  Returns look forward only: the returns of the later steps of a
    buffer are what they would be without the earlier steps, whatever the
    earlier rewards and flags. *)
Theorem returns_ignore_the_past (gamma : R)
    (rewards1 rewards2 : list R) (is_terminals1 is_terminals2 : list bool) :
  length rewards1 = length is_terminals1 ->
  length rewards2 = length is_terminals2 ->
  skipn (length rewards1)
    (compute_returns gamma (rewards1 ++ rewards2) (is_terminals1 ++ is_terminals2))
  = compute_returns gamma rewards2 is_terminals2.
Proof.
  intros H1 H2.
  rewrite !compute_returns_forward
    by (rewrite ?length_app; congruence).
  rewrite combine_app_same by assumption.
  rewrite <- (returns_forward_skip gamma (combine rewards1 is_terminals1)
                (combine rewards2 is_terminals2)).
  f_equal. rewrite length_combine, <- H1. now rewrite Nat.min_id.
Qed.

Lemma returns_ignore_the_past_witness :
  skipn (length [7; 8])
    (compute_returns 0.5 ([7; 8] ++ [3; 4]) ([false; false] ++ [false; false]))
  = compute_returns 0.5 [3; 4] [false; false].
Proof.
  exact (returns_ignore_the_past 0.5 [7; 8] [3; 4] [false; false] [false; false]
           eq_refl eq_refl).
Defined.

Lemma length_returns_loop (gamma : R) (pairs : list (R * bool)) :
  forall disc_reward Returns,
    length (returns_loop gamma pairs disc_reward Returns)
    = (length pairs + length Returns)%nat.
Proof.
  induction pairs as [|[r d] pairs IH]; intros acc Rs; simpl; [reflexivity|].
  rewrite IH. simpl. lia.
Qed.

(** X4.  When the two lists differ in length, [zip] over the reversed
    lists pairs the most recent entries: there are as many returns as the
    shorter list has entries, and they are the returns of the last that
    many rewards and flags; the older surplus of the longer list is never
    read. *)
Theorem returns_pair_the_most_recent (gamma : R) (rewards : list R)
    (is_terminals : list bool) :
  let k := Nat.min (length rewards) (length is_terminals) in
  length (compute_returns gamma rewards is_terminals) = k
  /\ compute_returns gamma rewards is_terminals
     = compute_returns gamma (skipn (length rewards - k) rewards)
         (skipn (length is_terminals - k) is_terminals).
Proof.
  intros k. unfold compute_returns. split.
  - rewrite length_returns_loop, length_combine, !length_rev. simpl.
    unfold k. lia.
  - f_equal.
    rewrite <- (firstn_all (combine (rev rewards) (rev is_terminals))).
    rewrite length_combine, !length_rev. fold k.
    rewrite combine_firstn, !firstn_rev. reflexivity.
Qed.

Lemma Rabs_le_iff (x b : R) : Rabs x <= b <-> - b <= x <= b.
Proof. unfold Rabs. destruct (Rcase_abs x); split; intros; lra. Qed.

Lemma returns_forward_bounded (gamma M : R) (steps : list (R * bool)) :
  0 <= gamma < 1 ->
  Forall (fun step => Rabs (fst step) <= M) steps ->
  Forall (fun G => Rabs G <= M / (1 - gamma)) (returns_forward gamma steps).
Proof.
  intros Hg Hall. induction Hall as [|[r d] steps Hr Hall IH]; [constructor|].
  simpl in Hr. rewrite returns_forward_cons. constructor; [|exact IH].
  set (bound := M / (1 - gamma)).
  assert (HM : 0 <= M) by (pose proof (Rabs_pos r); lra).
  assert (Hb : bound * (1 - gamma) = M) by (unfold bound; field; lra).
  assert (Hb0 : 0 <= bound).
  { unfold bound. apply Rmult_le_pos; [exact HM|].
    apply Rlt_le, Rinv_0_lt_compat. lra. }
  assert (Hhd : - bound <= hd 0 (returns_forward gamma steps) <= bound).
  { destruct IH as [|G Gs HG _]; simpl; [lra|]. now apply Rabs_le_iff. }
  apply Rabs_le_iff in Hr. apply Rabs_le_iff.
  destruct d; nra.
Qed.

(** X5.  In exact real arithmetic (floats read as real numbers, rounding
    left out) returns stay bounded: with [0 <= gamma < 1] and every reward
    at most [M] in absolute value, every return is at most
    [M / (1 - gamma)] in absolute value, however long the buffer and
    wherever the episodes end.  The rounding of the float loop can exceed
    the bound in the last digit. *)
Theorem returns_bounded (gamma M : R) (rewards : list R) (is_terminals : list bool) :
  0 <= gamma < 1 ->
  length rewards = length is_terminals ->
  Forall (fun r => Rabs r <= M) rewards ->
  Forall (fun G => Rabs G <= M / (1 - gamma))
    (compute_returns gamma rewards is_terminals).
Proof.
  intros Hg Hlen Hall. rewrite compute_returns_forward by assumption.
  apply returns_forward_bounded; [exact Hg|].
  clear Hg. revert is_terminals Hlen.
  induction Hall as [|r rs Hr Hall IH]; intros [|d ds] Hlen; simpl in Hlen;
    try discriminate; [constructor|].
  simpl. constructor; [exact Hr|]. apply IH. congruence.
Qed.

Lemma returns_bounded_witness :
  0 <= 0.99 < 1
  /\ Forall (fun G => Rabs G <= 1 / (1 - 0.99))
       (compute_returns 0.99 [1; 1; 1] [false; false; true]).
Proof.
  assert (Hg : 0 <= 0.99 < 1) by lra.
  split; [exact Hg|].
  apply (returns_bounded 0.99 1 [1; 1; 1] [false; false; true] Hg eq_refl).
  repeat constructor; rewrite Rabs_R1; lra.
Defined.

(** ** Normalisation: offsets and constant returns *)

Lemma sum_map_shift (c : R) (xs : list R) :
  sum (map (fun x => x + c) xs) = sum xs + INR (length xs) * c.
Proof.
  induction xs as [|x xs IH].
  - simpl. ring.
  - change (length (x :: xs)) with (S (length xs)). rewrite S_INR.
    simpl. rewrite IH. ring.
Qed.

Lemma mean_shift (c : R) (xs : list R) :
  xs <> [] -> mean (map (fun x => x + c) xs) = mean xs + c.
Proof.
  intros Hne. unfold mean. rewrite sum_map_shift, length_map.
  assert (Hn : INR (length xs) <> 0).
  { apply not_0_INR. destruct xs; [congruence|discriminate]. }
  field. exact Hn.
Qed.

Lemma std_shift (c : R) (xs : list R) :
  xs <> [] -> std (map (fun x => x + c) xs) = std xs.
Proof.
  intros Hne. unfold std, var.
  rewrite (mean_shift c xs Hne), map_map, length_map.
  do 3 f_equal. apply map_ext. intros x. ring.
Qed.

(** X6.  Normalisation forgets a common offset: adding one constant to
    every return leaves the normalised returns unchanged. *)
Theorem normalize_shift_invariant (c : R) (xs : list R) :
  normalize (map (fun x => x + c) xs) = normalize xs.
Proof.
  destruct xs as [|x xs]; [reflexivity|].
  assert (Hne : x :: xs <> []) by discriminate.
  unfold normalize.
  rewrite (mean_shift c _ Hne), (std_shift c _ Hne), map_map.
  apply map_ext. intros y. unfold Rdiv. ring.
Qed.





(** ** The clipped surrogate: negative advantages, and bounds *)

(** X8.  With a negative advantage the roles of the two sides of the band
    are exchanged: below the band the surrogate is the lower boundary
    value [(1 - eps) * A], above the band it is the unclipped [r * A],
    which lies strictly under the upper boundary value [(1 + eps) * A];
    and with advantage 0 the surrogate is 0. *)
Theorem surrogate_negative_advantage (eps r A : R) :
  (A < 0 -> 0 <= eps -> r < 1 - eps -> surrogate eps r A = (1 - eps) * A)
  /\ (A < 0 -> 1 + eps < r ->
      surrogate eps r A = r * A /\ r * A < (1 + eps) * A)
  /\ surrogate eps r 0 = 0.
Proof.
  unfold surrogate. repeat split.
  - intros HA He Hr. rewrite clamp_below by lra.
    unfold Rmin. destruct (Rle_dec _ _); [nra|reflexivity].
  - rewrite clamp_above by assumption.
    unfold Rmin. destruct (Rle_dec _ _); [reflexivity|nra].
  - nra.
  - rewrite !Rmult_0_r. unfold Rmin. destruct (Rle_dec _ _); reflexivity.
Qed.

Lemma surrogate_negative_advantage_witness :
  (-1 < 0 /\ 0 <= 0.2 /\ 0.5 < 1 - 0.2 /\ surrogate 0.2 0.5 (-1) = (1 - 0.2) * -1)
  /\ (1 + 0.2 < 2 /\ surrogate 0.2 2 (-1) = 2 * -1).
Proof.
  split.
  - split; [lra|]. split; [lra|]. split; [lra|].
    apply (proj1 (surrogate_negative_advantage 0.2 0.5 (-1))); lra.
  - split; [lra|].
    apply (proj1 (proj2 (surrogate_negative_advantage 0.2 2 (-1)))); lra.
Defined.

Lemma clamp_bounds (x lo hi : R) : lo <= hi -> lo <= clamp x lo hi <= hi.
Proof.
  intros H. unfold clamp, Rmin, Rmax.
  destruct (Rle_dec x lo); destruct (Rle_dec _ hi); lra.
Qed.

(** X9.  The surrogate never exceeds the unclipped objective, and for
    [eps >= 0] it is bounded whatever the ratio: by [(1 + eps) * A] when
    the advantage is positive, by [(1 - eps) * A] when it is negative.  A
    large ratio cannot make the objective arbitrarily optimistic. *)
Theorem surrogate_is_pessimistic (eps r A : R) :
  0 <= eps ->
  surrogate eps r A <= r * A
  /\ (0 <= A -> surrogate eps r A <= (1 + eps) * A)
  /\ (A <= 0 -> surrogate eps r A <= (1 - eps) * A).
Proof.
  intros He. unfold surrogate.
  pose proof (clamp_bounds r (1 - eps) (1 + eps) ltac:(lra)) as [Hlo Hhi].
  set (c := clamp r (1 - eps) (1 + eps)) in *.
  repeat split; unfold Rmin; destruct (Rle_dec _ _); intros; nra.
Qed.

Lemma surrogate_is_pessimistic_witness :
  0 <= 0.2 /\ surrogate 0.2 100 1 <= (1 + 0.2) * 1.
Proof.
  split; [lra|].
  apply (proj1 (proj2 (surrogate_is_pessimistic 0.2 100 1 ltac:(lra)))). lra.
Defined.

(** ** The policy and the optimizer, further *)

Section Further.
Context {B : Backend} {E : Environment}.

Lemma map2_map_l {A A' C D : Type} (g : A' -> C -> D) (f : A -> A') (xs : list A)
    (ys : list C) :
  map2 g (map f xs) ys = map2 (fun x y => g (f x) y) xs ys.
Proof.
  revert ys. induction xs as [|x xs IH]; intros [|y ys]; try reflexivity.
  unfold map2 in *. simpl. f_equal. apply IH.
Qed.

Lemma map2_map_r {A C C' D : Type} (g : A -> C' -> D) (f : C -> C') (xs : list A)
    (ys : list C) :
  map2 g xs (map f ys) = map2 (fun x y => g x (f y)) xs ys.
Proof.
  revert ys. induction xs as [|x xs IH]; intros [|y ys]; try reflexivity.
  unfold map2 in *. simpl. f_equal. apply IH.
Qed.

Lemma map_map2 {A C D D' : Type} (f : D -> D') (g : A -> C -> D) (xs : list A)
    (ys : list C) :
  map f (map2 g xs ys) = map2 (fun x y => f (g x y)) xs ys.
Proof. unfold map2. now rewrite map_map. Qed.

Lemma map2_app {A C D : Type} (g : A -> C -> D) (xs1 xs2 : list A) (ys1 ys2 : list C) :
  length xs1 = length ys1 ->
  map2 g (xs1 ++ xs2) (ys1 ++ ys2) = map2 g xs1 ys1 ++ map2 g xs2 ys2.
Proof.
  intros H. unfold map2. now rewrite combine_app_same, map_app.
Qed.

Lemma map2_diag {A D : Type} (g : A -> A -> D) (xs : list A) :
  map2 g xs xs = map (fun x => g x x) xs.
Proof.
  induction xs as [|x xs IH]; [reflexivity|].
  unfold map2 in *. simpl. now rewrite IH.
Qed.

(** *** evaluate *)

Lemma evaluate_eq (self : ActorCritic) (state action : list (list R)) :
  positive_definite (action_var self) = true ->
  evaluate self state action
  = Ok (map2 (fun s a => mvn_log_prob (actor (params self) s) (action_var self) a)
          state action,
        map (critic (params self)) state,
        map (fun s => mvn_entropy (actor (params self) s) (action_var self)) state).
Proof.
  intros Hpd. unfold evaluate. rewrite (MultivariateNormal_ok _ _ Hpd). simpl.
  now rewrite map2_map_l, map_map.
Qed.

(** X10.  On a batch of as many actions as states, with a valid
    covariance, [evaluate] returns one log-probability, one state value
    and one entropy per state; with a covariance that is not positive
    definite it raises a [ValueError], whatever the batch. *)
Theorem evaluate_shapes (self : ActorCritic) (state action : list (list R)) :
  (positive_definite (action_var self) = true ->
   length action = length state ->
   exists log_probs state_values dist_entropy,
     evaluate self state action = Ok (log_probs, state_values, dist_entropy)
     /\ length log_probs = length state
     /\ length state_values = length state
     /\ length dist_entropy = length state)
  /\ (positive_definite (action_var self) = false ->
      evaluate self state action = Err ValueError).
Proof.
  split; [|apply evaluate_err].
  intros Hpd Hlen. eexists _, _, _. split; [apply (evaluate_eq _ _ _ Hpd)|].
  rewrite length_map2, !length_map by congruence. auto.
Qed.

(** *** The outcomes of update *)

Lemma update_no_steps (self : PPO) (memory : Memory) :
  states memory = [] \/ actions memory = [] \/ logprobs memory = [] ->
  update self memory
  = ([EvReduce (compute_returns (gamma self) (rewards memory) (is_terminals memory))],
     Err RuntimeError).
Proof.
  intros H. unfold update.
  destruct (states memory) as [|s ss]; [reflexivity|].
  destruct (actions memory) as [|a aa]; [reflexivity|].
  destruct (logprobs memory) as [|l ll]; [reflexivity|].
  destruct H as [H|[H|H]]; discriminate.
Qed.

Lemma update_bad_covariance (self : PPO) (memory : Memory) :
  states memory <> [] -> actions memory <> [] -> logprobs memory <> [] ->
  (1 <= K_epochs self)%nat ->
  positive_definite (action_var (policy self)) = false ->
  update self memory
  = ([EvReduce (compute_returns (gamma self) (rewards memory) (is_terminals memory));
      EvEvaluate Current 0],
     Err ValueError).
Proof.
  intros Hs Ha Hl HK Hpd. unfold update.
  destruct (states memory) as [|s ss]; [congruence|].
  destruct (actions memory) as [|a aa]; [congruence|].
  destruct (logprobs memory) as [|l ll]; [congruence|].
  destruct (K_epochs self) as [|K]; [lia|].
  unfold bind at 1 2 3 4 5. unfold tell at 1, lift. cbv iota beta.
  change (seq 0 (S K)) with (0%nat :: seq 1 K). cbn [stack map].
  rewrite (epochs_err self _ _ _ _ _ _ _ (evaluate_err _ _ _ Hpd)).
  reflexivity.
Qed.

(** X11.  The ways [update] can fail on a buffer whose five sequences
    have one length, in the order the code meets them.  An empty buffer:
    [RuntimeError] from [torch.stack], after the reduction over the
    returns.  Otherwise no epoch ([K_epochs = 0]): [UnboundLocalError] at
    line 130.  Otherwise an invalid covariance: [ValueError] in the first
    [evaluate].  In every failure no backward pass and no optimizer step
    has happened, so the parameters are untouched. *)
Theorem update_failures (self : PPO) (memory : Memory) :
  consistent memory ->
  let raw := compute_returns (gamma self) (rewards memory) (is_terminals memory) in
  (actions memory = [] ->
   update self memory = ([EvReduce raw], Err RuntimeError))
  /\ (actions memory <> [] -> K_epochs self = 0%nat ->
      update self memory = ([EvReduce raw], Err UnboundLocalError))
  /\ (actions memory <> [] -> (1 <= K_epochs self)%nat ->
      positive_definite (action_var (policy self)) = false ->
      update self memory = ([EvReduce raw; EvEvaluate Current 0], Err ValueError))
  /\ (forall tr e,
        update self memory = (tr, Err e) ->
        filter is_backward tr = [] /\ filter is_step tr = []
        /\ (e = RuntimeError \/ e = UnboundLocalError \/ e = ValueError)).
Proof.
  intros (Hcs & Hcl & _ & _) raw.
  assert (Hne : actions memory <> [] ->
                states memory <> [] /\ logprobs memory <> []).
  { intros Ha. split.
    - destruct (states memory), (actions memory); simpl in *; congruence.
    - destruct (logprobs memory), (actions memory); simpl in *; congruence. }
  split; [intros Ha; apply update_no_steps; auto|].
  split; [intros Ha HK; destruct (Hne Ha); now apply update_no_epoch|].
  split; [intros Ha HK Hpd; destruct (Hne Ha); now apply update_bad_covariance|].
  intros tr e H.
  destruct (actions memory) as [|a aa] eqn:Ha.
  { rewrite update_no_steps in H by (right; left; exact Ha).
    injection H as <- <-. auto. }
  assert (Ha' : actions memory <> []) by (rewrite Ha; discriminate).
  rewrite <- Ha in Hne. destruct (Hne Ha') as [Hs' Hl'].
  destruct (K_epochs self) as [|K] eqn:HK.
  { rewrite (update_no_epoch self memory Hs' Ha' Hl' HK) in H.
    injection H as <- <-. auto. }
  assert (HK' : (1 <= K_epochs self)%nat) by lia.
  destruct (positive_definite (action_var (policy self))) eqn:Hpd.
  - destruct (update_ok self memory Hs' Ha' Hl' HK' Hpd)
      as (lp & sv & de & opt' & p' & _ & _ & Hup).
    rewrite Hup in H. discriminate.
  - rewrite (update_bad_covariance self memory Hs' Ha' Hl' HK' Hpd) in H.
    injection H as <- <-. auto.
Qed.

(** X12.  The order of the calls in an [update] that returns: the
    reduction over the returns first; then the [K_epochs] calls of
    [evaluate], epoch 0 to epoch [K_epochs - 1], with nothing in between;
    then [zero_grad], the one backward pass, the one optimizer step, and
    last the copy of the new parameters into the old snapshot. *)
Theorem update_call_order (self : PPO) (memory : Memory) tr ppo' memory' :
  update self memory = (tr, Ok (ppo', memory')) ->
  exists loss,
    tr = [EvReduce (compute_returns (gamma self) (rewards memory) (is_terminals memory))]
         ++ map (EvEvaluate Current) (seq 0 (K_epochs self))
         ++ [EvZeroGrad; EvBackward (K_epochs self - 1) loss; EvStep; EvLoadStateDict].
Proof.
  intros H. destruct (update_inv self memory _ _ _ H) as (Hs & Ha & Hl & HK & Hpd).
  destruct (update_ok self memory Hs Ha Hl HK Hpd)
    as (lp & sv & de & opt' & p' & _ & _ & Hup).
  rewrite Hup in H. injection H as <- _ _.
  eexists. reflexivity.
Qed.

(** *** The loss inside update *)

Lemma loss_mean_unfold (eps : R) (Returns ratios state_values dist_entropy : list R) :
  length ratios = length Returns ->
  length state_values = length Returns ->
  length dist_entropy = length Returns ->
  loss_mean eps Returns ratios state_values state_values dist_entropy
  = spec_batch_loss eps Returns ratios state_values dist_entropy.
Proof.
  intros H1 H2 H3.
  assert (Ls : length (map2 (surrogate eps) ratios (map2 Rminus Returns state_values))
               = length Returns)
    by (rewrite !length_map2; rewrite ?length_map2; congruence).
  unfold loss_mean, spec_batch_loss, loss_vector, mean.
  rewrite L_CLIP_is_surrogate, sum_loss_vector_scalar by assumption.
  rewrite (length_map2 _ _ dist_entropy) by congruence.
  rewrite Ls, length_spec_step_losses by assumption.
  unfold MseLoss, mean. rewrite length_map2, H2 by congruence.
  destruct Returns as [|G Gs].
  - apply length_zero_iff_nil in H1, H2, H3. subst. unfold map2. simpl. lra.
  - assert (Hn : INR (length (G :: Gs)) <> 0) by (apply not_0_INR; discriminate).
    field. exact Hn.
Qed.

Lemma length_compute_returns (gamma : R) (rewards : list R) (is_terminals : list bool) :
  length rewards = length is_terminals ->
  length (compute_returns gamma rewards is_terminals) = length rewards.
Proof.
  intros H. unfold compute_returns.
  rewrite length_returns_loop, length_combine, !length_rev, <- H. simpl. lia.
Qed.

(** X13.  On a consistent buffer with at least one step, the scalar that
    [update] backpropagates is the specification's batch loss of the
    normalised returns, the ratios, the state values and the entropies of
    the last epoch: the code's broadcast of the mean squared error changes
    nothing once the whole of [update] is run. *)
Theorem update_backpropagates_spec_loss (self : PPO) (memory : Memory) :
  consistent memory -> actions memory <> [] ->
  (1 <= K_epochs self)%nat ->
  positive_definite (action_var (policy self)) = true ->
  let Returns :=
    normalize (compute_returns (gamma self) (rewards memory) (is_terminals memory)) in
  let old_logprobs := map (fun t => hd 0 (data t)) (logprobs memory) in
  exists tr ppo' log_probs state_values dist_entropy,
    update self memory = (tr, Ok (ppo', memory))
    /\ evaluate (policy self) (map data (states memory)) (map data (actions memory))
       = Ok (log_probs, state_values, dist_entropy)
    /\ filter is_backward tr
       = [EvBackward (K_epochs self - 1)
            (spec_batch_loss (eps_clip self) Returns
               (map2 (fun lp olp => exp (lp - olp)) log_probs old_logprobs)
               state_values dist_entropy)].
Proof.
  intros (Hs & Hl & Hr & Ht) Ha HK Hpd Returns old_logprobs.
  assert (Hs' : states memory <> [])
    by (destruct (states memory), (actions memory); simpl in *; congruence).
  assert (Hl' : logprobs memory <> [])
    by (destruct (logprobs memory), (actions memory); simpl in *; congruence).
  destruct (update_ok self memory Hs' Ha Hl' HK Hpd)
    as (lp & sv & de & opt' & p' & Hev & _ & Hup).
  pose proof Hev as Hev'. rewrite (evaluate_eq _ _ _ Hpd) in Hev'.
  injection Hev' as Hlp Hsv Hde.
  assert (Llp : length lp = length (actions memory)).
  { rewrite <- Hlp, length_map2, !length_map; rewrite ?length_map; congruence. }
  assert (Lsv : length sv = length (actions memory))
    by (rewrite <- Hsv, !length_map; congruence).
  assert (Lde : length de = length (actions memory))
    by (rewrite <- Hde, !length_map; congruence).
  assert (LR : length Returns = length (actions memory)).
  { unfold Returns. rewrite length_normalize, length_compute_returns; congruence. }
  eexists _, _, lp, sv, de. split; [exact Hup|]. split; [exact Hev|].
  destruct (filter_complete_trace
              (compute_returns (gamma self) (rewards memory) (is_terminals memory))
              (K_epochs self)
              (loss_mean (eps_clip self) Returns
                 (map2 (fun lp olp => exp (lp - olp)) lp old_logprobs) sv sv de))
    as (_ & F2 & _).
  rewrite <- loss_mean_unfold; [exact F2| | |]; try congruence.
  rewrite length_map2; unfold old_logprobs; rewrite ?length_map; congruence.
Qed.

(** *** Ratios *)

Lemma map_const_repeat {A : Type} (c : R) (xs : list A) :
  map (fun _ => c) xs = repeat c (length xs).
Proof. induction xs as [|x xs IH]; simpl; [reflexivity|]. now rewrite IH. Qed.

Lemma surrogate_at_one (eps A : R) : 0 <= eps -> surrogate eps 1 A = A.
Proof.
  intros He. unfold surrogate. rewrite clamp_inside by lra.
  unfold Rmin. destruct (Rle_dec _ _); lra.
Qed.

Lemma surrogate_repeat_one (eps : R) (advantages : list R) :
  0 <= eps ->
  map2 (surrogate eps) (repeat 1 (length advantages)) advantages = advantages.
Proof.
  intros He. induction advantages as [|A advs IH]; [reflexivity|].
  unfold map2 in *. simpl. now rewrite IH, surrogate_at_one.
Qed.

(** X14.  When the two snapshots are in step and the buffer was collected
    by the old one, the log-probabilities [evaluate] recomputes are the
    stored ones, so every ratio in [update] is exactly 1 (in exact
    arithmetic) and, for [eps_clip >= 0], the clipped surrogate of each
    step is its advantage: with the single gradient step of this code the
    clip is never active. *)
Theorem update_ratios_are_one (self : PPO) (memory : Memory) :
  synced self ->
  collected_by (policy_old self) memory ->
  positive_definite (action_var (policy self)) = true ->
  exists log_probs state_values dist_entropy,
    evaluate (policy self) (map data (states memory)) (map data (actions memory))
    = Ok (log_probs, state_values, dist_entropy)
    /\ log_probs = map (fun t => hd 0 (data t)) (logprobs memory)
    /\ map2 (fun lp olp => exp (lp - olp)) log_probs
         (map (fun t => hd 0 (data t)) (logprobs memory))
       = repeat 1 (length (actions memory))
    /\ (0 <= eps_clip self ->
        forall advantages, length advantages = length (actions memory) ->
          map2 (surrogate (eps_clip self))
            (map2 (fun lp olp => exp (lp - olp)) log_probs
               (map (fun t => hd 0 (data t)) (logprobs memory)))
            advantages
          = advantages).
Proof.
  intros [Hp Hv] [Hlen Hlog] Hpd.
  eexists _, _, _. split; [apply (evaluate_eq _ _ _ Hpd)|].
  assert (Heq : map2 (fun s a => mvn_log_prob (actor (params (policy self)) s)
                                   (action_var (policy self)) a)
                  (map data (states memory)) (map data (actions memory))
                = map (fun t => hd 0 (data t)) (logprobs memory)).
  { rewrite Hlog, map_map2, map2_map_l, map2_map_r, Hp, Hv. reflexivity. }
  assert (Hone : map2 (fun lp olp => exp (lp - olp))
                   (map (fun t => hd 0 (data t)) (logprobs memory))
                   (map (fun t => hd 0 (data t)) (logprobs memory))
                 = repeat 1 (length (actions memory))).
  { rewrite map2_diag.
    rewrite (map_ext _ (fun _ => 1))
      by (intros x; rewrite Rminus_diag; apply exp_0).
    rewrite map_const_repeat, length_map, Hlog, length_map2 by exact Hlen.
    now rewrite Hlen. }
  rewrite Heq. split; [reflexivity|]. split; [exact Hone|].
  intros He advantages Hadv. rewrite Hone, <- Hadv.
  now apply surrogate_repeat_one.
Qed.

(** *** What update leaves alone *)

(** X15.  An [update] that returns has changed the parameters and the
    optimizer state only: learning rate, betas, gamma, clip range and
    epoch count are what they were, and so is the variance of both
    snapshots, which is never learned. *)
Theorem update_changes_parameters_only (self : PPO) (memory : Memory) tr ppo' memory' :
  update self memory = (tr, Ok (ppo', memory')) ->
  lr ppo' = lr self /\ betas ppo' = betas self /\ gamma ppo' = gamma self
  /\ eps_clip ppo' = eps_clip self /\ K_epochs ppo' = K_epochs self
  /\ action_var (policy ppo') = action_var (policy self)
  /\ action_var (policy_old ppo') = action_var (policy_old self).
Proof.
  intros H. destruct (update_inv self memory _ _ _ H) as (Hs & Ha & Hl & HK & Hpd).
  destruct (update_ok self memory Hs Ha Hl HK Hpd)
    as (lp & sv & de & opt' & p' & _ & _ & Hup).
  rewrite Hup in H. injection H as _ <- _. simpl. repeat split.
Qed.

(** *** Construction, the sign of action_std *)

Lemma positive_definite_square (s : R) (n : nat) :
  s <> 0 -> positive_definite (repeat (s * s) n) = true.
Proof.
  intros Hs. induction n as [|n IH]; [reflexivity|].
  simpl. destruct (Rlt_dec 0 (s * s)) as [_|Hn].
  - exact IH.
  - exfalso. apply Hn. apply (Rlt_0_sqr s Hs).
Qed.

Lemma positive_definite_repeat (v : R) (n : nat) :
  0 < v -> positive_definite (repeat v n) = true.
Proof.
  intros Hv. induction n as [|n IH]; [reflexivity|].
  simpl. destruct (Rlt_dec 0 v) as [_|Hn]; [exact IH|contradiction].
Qed.

(** X16.  Whenever the variance [action_std * action_std], as line 50
    stores it, is positive (in exact arithmetic: whenever [action_std] is
    not 0; in the float32 tensor a tiny [action_std] can still store 0),
    the optimizer starts with the two snapshots in step (same parameters,
    same variance) and a valid covariance on both, for any dimensions; and
    only the square of [action_std] is used, so a negative value builds
    exactly what its absolute value builds. *)
Theorem construction_with_positive_variance
    (state_dim action_dim : nat) (action_std lr : R) (betas : R * R) (gamma : R)
    (K_epochs : nat) (eps_clip : R) (rng : Rng) :
  (0 < action_std * action_std ->
   exists ppo rng',
     PPO_init state_dim action_dim action_std lr betas gamma K_epochs eps_clip rng
     = Ok (ppo, rng')
     /\ synced ppo
     /\ action_var (policy ppo) = repeat (action_std * action_std) action_dim
     /\ positive_definite (action_var (policy ppo)) = true
     /\ positive_definite (action_var (policy_old ppo)) = true)
  /\ ActorCritic_init state_dim action_dim (- action_std) rng
     = ActorCritic_init state_dim action_dim action_std rng
  /\ PPO_init state_dim action_dim (- action_std) lr betas gamma K_epochs eps_clip rng
     = PPO_init state_dim action_dim action_std lr betas gamma K_epochs eps_clip rng.
Proof.
  assert (Hsq : - action_std * - action_std = action_std * action_std) by ring.
  split; [|split].
  - intros Hs. unfold PPO_init, ActorCritic_init.
    destruct (init_params state_dim action_dim rng) as [p r]. simpl.
    destruct (init_params state_dim action_dim r) as [p' r']. simpl.
    eexists _, _. split; [reflexivity|]. unfold synced. simpl.
    repeat split; apply positive_definite_repeat; exact Hs.
  - unfold ActorCritic_init. now rewrite Hsq.
  - unfold PPO_init, ActorCritic_init. now rewrite Hsq.
Qed.

(** *** Collection, step by step *)

Lemma collect_step_spec (w w' : World) :
  collect_step w = Ok w' ->
  let old := policy_old (ppo w) in
  exists a r d,
    memory w'
    = grown (memory w) {| data := state w; requires_grad := false |}
        {| data := a; requires_grad := false |}
        {| data := [mvn_log_prob (actor (params old) (state w)) (action_var old) a];
           requires_grad := true |}
        r d
    /\ ppo w' = ppo w /\ time_step w' = time_step w.
Proof.
  unfold collect_step, action_selection, act.
  destruct (MultivariateNormal _ _) as [dist|e] eqn:Hd; [|discriminate].
  apply MultivariateNormal_inv in Hd as [_ ->]. simpl.
  destruct (mvn_sample _ _ (rng w)) as [sampled r0]. simpl.
  destruct (env_step (env w) sampled) as [[[s rew] d] e'].
  intros H. injection H as <-. simpl. exists sampled, rew, d. auto.
Qed.

Lemma grown_consistent (m : Memory) (s a lp : tensor) (r : R) (d : bool) :
  consistent m -> consistent (grown m s a lp r d).
Proof.
  intros (H1 & H2 & H3 & H4). unfold consistent, grown. simpl.
  rewrite !length_app. simpl. lia.
Qed.

Lemma grown_collected (old : ActorCritic) (m : Memory) (s a : tensor) (r : R) (d : bool) :
  collected_by old m ->
  collected_by old
    (grown m s a
       {| data := [mvn_log_prob (actor (params old) (data s)) (action_var old) (data a)];
          requires_grad := true |} r d).
Proof.
  intros [Hlen Hlog]. unfold collected_by, grown. simpl. split.
  - rewrite !length_app. simpl. lia.
  - rewrite map2_app by exact Hlen. now rewrite <- Hlog.
Qed.

(** X17.  Collection only appends: a phase of [n] steps that returns has
    added exactly [n] entries at the end of each of the five sequences and
    removed or changed none, so a buffer whose sequences had one length
    has them at one length again; the step counter is not touched. *)
Theorem collect_appends (n : nat) :
  forall (w w' : World),
    collect n w = Ok w' ->
    (exists ss aa ll rr dd,
        states (memory w') = states (memory w) ++ ss
        /\ actions (memory w') = actions (memory w) ++ aa
        /\ logprobs (memory w') = logprobs (memory w) ++ ll
        /\ rewards (memory w') = rewards (memory w) ++ rr
        /\ is_terminals (memory w') = is_terminals (memory w) ++ dd
        /\ length ss = n /\ length aa = n /\ length ll = n
        /\ length rr = n /\ length dd = n)
    /\ (consistent (memory w) -> consistent (memory w'))
    /\ time_step w' = time_step w.
Proof.
  induction n as [|n IH]; intros w w'; simpl.
  - intros H. injection H as <-. split; [|auto].
    exists [], [], [], [], []. rewrite !app_nil_r. repeat split.
  - destruct (collect_step w) as [w1|e] eqn:H1; [|discriminate]. simpl.
    intros Hn. destruct (IH _ _ Hn) as ((ss & aa & ll & rr & dd & Hs & Ha & Hl & Hr
      & Hd & Ls & La & Ll & Lr & Ld) & Hc & Ht).
    destruct (collect_step_spec _ _ H1) as (a & r & d & Hm & _ & Ht1).
    rewrite Hm in Hs, Ha, Hl, Hr, Hd, Hc. unfold grown in Hs, Ha, Hl, Hr, Hd.
    simpl in Hs, Ha, Hl, Hr, Hd. rewrite <- app_assoc in Hs, Ha, Hl, Hr, Hd.
    split; [|split].
    + eexists _, _, _, _, _.
      repeat (split; [eassumption|]). simpl. repeat split; congruence.
    + intros Hcons. apply Hc. now apply grown_consistent.
    + congruence.
Qed.

(** *** The training loop *)

Lemma filter_reduce_complete_trace (Returns : list R) (K : nat) (loss : R) :
  filter is_reduce (complete_trace Returns K loss) = [EvReduce Returns].
Proof.
  unfold complete_trace. rewrite !filter_app. simpl.
  replace (filter is_reduce (map (EvEvaluate Current) (seq 0 K))) with (@nil event);
    [reflexivity|].
  induction (seq 0 K) as [|j js IH]; simpl; [reflexivity|exact IH].
Qed.

Lemma balanced_nil (n K : nat) : balanced n K [].
Proof. unfold balanced. simpl. repeat split; [constructor|lia]. Qed.

Lemma balanced_app (n K : nat) (tr1 tr2 : list event) :
  balanced n K tr1 -> balanced n K tr2 -> balanced n K (tr1 ++ tr2).
Proof.
  intros (F1 & E1 & B1 & R1) (F2 & E2 & B2 & R2). unfold balanced.
  rewrite !filter_app, !length_app. repeat split.
  - apply Forall_app. auto.
  - lia.
  - lia.
  - lia.
Qed.

Lemma balanced_complete_trace (K : nat) (Returns : list R) (loss : R) :
  balanced (length Returns) K (complete_trace Returns K loss).
Proof.
  destruct (filter_complete_trace Returns K loss) as (F1 & F2 & F3).
  unfold balanced.
  rewrite F1, F2, F3, filter_reduce_complete_trace, length_map, length_seq.
  repeat split; [|simpl; lia].
  unfold complete_trace. apply Forall_app. split.
  - constructor; [reflexivity|constructor].
  - apply Forall_app. split.
    + apply Forall_forall. intros ev Hin. apply in_map_iff in Hin as (j & <- & _).
      exact I.
    + repeat constructor.
Qed.

(** One pass seen through [collect_step] and [update_and_clear]. *)
Lemma loop_pass_unfold (u : nat) (w : World) :
  loop_pass u w
  = match collect_step {| ppo := ppo w; memory := memory w; rng := rng w; env := env w;
                          state := state w; time_step := time_step w + 1 |} with
    | Ok w1 =>
        let (tr, r) :=
          if (time_step w1 mod u =? 0)%nat then update_and_clear w1 else ret w1 in
        (tr, match r with
             | Ok w2 => Ok (w2, last (rewards (memory w1)) 0,
                            last (is_terminals (memory w1)) false)
             | Err e => Err e
             end)
    | Err e => ([], Err e)
    end.
Proof.
  unfold loop_pass, collect_step, lift, bind. cbn [ppo memory rng env state time_step].
  destruct (action_selection _ _ _ _) as [[[a m] r]|e]; [|reflexivity].
  simpl. destruct (env_step (env w) a) as [[[s rew] d] e']. simpl.
  rewrite !last_last.
  destruct (_ =? 0)%nat.
  - destruct (update_and_clear _) as [tr [w2|e]]; simpl; rewrite ?app_nil_r; reflexivity.
  - reflexivity.
Qed.

(** [timestep] is [loop_pass] without the reward and the flag. *)
Lemma timestep_loop_pass (u : nat) (w : World) :
  timestep u w
  = (fst (loop_pass u w),
     match snd (loop_pass u w) with
     | Ok (w', _, _) => Ok w'
     | Err e => Err e
     end).
Proof.
  rewrite loop_pass_unfold. unfold timestep, lift, bind.
  destruct (collect_step _) as [w1|e]; [|reflexivity].
  destruct (if (_ =? 0)%nat then _ else _) as [tr [w2|e]]; reflexivity.
Qed.

Lemma update_and_clear_ready (u K : nat) (w1 : World) :
  consistent (memory w1) ->
  length (actions (memory w1)) = u -> (1 <= u)%nat ->
  synced (ppo w1) -> runnable (ppo w1) -> K_epochs (ppo w1) = K ->
  exists tr w2,
    update_and_clear w1 = (tr, Ok w2)
    /\ ready u K w2 /\ balanced u K tr
    /\ memory w2 = Memory_init /\ time_step w2 = 0%nat
    /\ length (filter is_step tr) = 1%nat.
Proof.
  intros (Hs & Hl & Hr & Ht) Hlen Hu [Hp Hv] [HK Hpd] HKe.
  assert (Ha' : actions (memory w1) <> [])
    by (destruct (actions (memory w1)); [simpl in Hlen; lia|discriminate]).
  assert (Hs' : states (memory w1) <> [])
    by (destruct (states (memory w1)), (actions (memory w1)); simpl in *; congruence).
  assert (Hl' : logprobs (memory w1) <> [])
    by (destruct (logprobs (memory w1)), (actions (memory w1)); simpl in *; congruence).
  assert (Hpd' : positive_definite (action_var (policy (ppo w1))) = true)
    by (now rewrite Hv).
  destruct (update_ok (ppo w1) (memory w1) Hs' Ha' Hl' HK Hpd')
    as (lp & sv & de & opt' & p' & _ & _ & Hup).
  unfold update_and_clear, bind, ret. rewrite Hup. cbv beta iota zeta.
  rewrite app_nil_r.
  eexists _, _. split; [reflexivity|].
  assert (Hraw : length (compute_returns (gamma (ppo w1)) (rewards (memory w1))
                           (is_terminals (memory w1))) = u).
  { rewrite length_compute_returns; congruence. }
  split; [|split; [|split; [|split]]].
  - unfold ready, loop_invariant, synced, runnable, collected_by, consistent. simpl.
    repeat split; try assumption; try lia; congruence.
  - rewrite <- HKe, <- Hraw. apply balanced_complete_trace.
  - reflexivity.
  - reflexivity.
  - destruct (filter_complete_trace
                (compute_returns (gamma (ppo w1)) (rewards (memory w1))
                   (is_terminals (memory w1)))
                (K_epochs (ppo w1))
                (loss_mean (eps_clip (ppo w1))
                   (normalize (compute_returns (gamma (ppo w1)) (rewards (memory w1))
                                 (is_terminals (memory w1))))
                   (map2 (fun lp olp => exp (lp - olp)) lp
                      (map (fun t => hd 0 (data t)) (logprobs (memory w1))))
                   sv sv de)) as (_ & _ & F3).
    rewrite F3. reflexivity.
Qed.

(** A pass from a ready world: the update runs exactly when the buffer
    reaches [u] steps. *)
Lemma loop_pass_ready (u K : nat) (w : World) :
  ready u K w ->
  exists tr w' reward done,
    loop_pass u w = (tr, Ok (w', reward, done))
    /\ ready u K w' /\ balanced u K tr
    /\ ((time_step w + 1 = u)%nat ->
        memory w' = Memory_init /\ time_step w' = 0%nat
        /\ length (filter is_step tr) = 1%nat)
    /\ ((time_step w + 1 <> u)%nat ->
        tr = [] /\ time_step w' = (time_step w + 1)%nat
        /\ length (actions (memory w')) = S (length (actions (memory w)))
        /\ ppo w' = ppo w).
Proof.
  intros ((Hc & Hlen & Hlt & Hsy & Hcol) & Hrun & HK).
  set (w0 := {| ppo := ppo w; memory := memory w; rng := rng w; env := env w;
                state := state w; time_step := time_step w + 1 |}).
  destruct (collect_step_ok w0 (proj2 Hrun)) as [w1 H1].
  destruct (collect_step_spec _ _ H1) as (a & r & d & Hm & Hppo & Hts).
  cbn [ppo memory state time_step w0] in Hm, Hppo, Hts.
  assert (Hc1 : consistent (memory w1)) by (rewrite Hm; now apply grown_consistent).
  assert (Hl1 : length (actions (memory w1)) = (time_step w + 1)%nat).
  { rewrite Hm. unfold grown. simpl. rewrite length_app. simpl. lia. }
  assert (Hcol1 : collected_by (policy_old (ppo w1)) (memory w1)).
  { rewrite Hm, Hppo.
    apply (grown_collected (policy_old (ppo w)) (memory w)
             {| data := state w; requires_grad := false |}
             {| data := a; requires_grad := false |} r d Hcol). }
  rewrite loop_pass_unfold. fold w0. rewrite H1, Hts.
  destruct (Nat.eqb_spec ((time_step w + 1) mod u) 0) as [Hdue|Hnot].
  - assert (Hu : (time_step w + 1 = u)%nat).
    { destruct (Nat.eq_dec (time_step w + 1) u) as [Heq|Hne]; [exact Heq|].
      rewrite Nat.mod_small in Hdue by lia. lia. }
    destruct (update_and_clear_ready u K w1 Hc1 ltac:(lia) ltac:(lia)
                ltac:(now rewrite Hppo) ltac:(now rewrite Hppo)
                ltac:(now rewrite Hppo))
      as (tr & w2 & H2 & Hready & Hbal & Hmem & Ht0 & Hstep).
    rewrite H2. eexists _, _, _, _. split; [reflexivity|].
    split; [exact Hready|]. split; [exact Hbal|]. split; [auto|].
    intros Hne. contradiction.
  - assert (Hu : (time_step w + 1 <> u)%nat).
    { intros Heq. apply Hnot. rewrite Heq. apply Nat.Div0.mod_same. }
    unfold ret. eexists _, _, _, _. split; [reflexivity|].
    split; [|split; [apply balanced_nil|split]].
    + rewrite Hppo in Hcol1.
      unfold ready, loop_invariant. rewrite Hppo, Hts, Hl1.
      repeat split; try assumption; try apply Hsy; try apply Hrun; try apply Hc1;
        try apply Hcol1; try lia.
    + intros Heq. contradiction.
    + intros _. repeat split; try assumption. lia.
Qed.

Variable env_reset : Env -> list R * Env.
Variable observation_shape : Env -> list nat.
Variable action_shape : Env -> list nat.

Lemma episode_loop_ready (u K : nat) (ts : list nat) :
  forall w log, ready u K w ->
    exists tr w' log',
      episode_loop u ts w log = (tr, Ok (w', log'))
      /\ ready u K w' /\ balanced u K tr
      /\ (ts <> [] \/ t log <> None -> t log' <> None).
Proof.
  induction ts as [|t0 ts IH]; intros w log Hw; simpl.
  - exists [], w, log. split; [reflexivity|]. split; [exact Hw|].
    split; [apply balanced_nil|]. intros [H|H]; [congruence|exact H].
  - destruct (loop_pass_ready u K w Hw)
      as (tr & w1 & reward & done & H1 & Hw1 & Hb1 & _ & _).
    unfold bind. rewrite H1. destruct done.
    + unfold ret. rewrite app_nil_r. eexists _, _, _. split; [reflexivity|].
      split; [exact Hw1|]. split; [exact Hb1|]. intros _. discriminate.
    + destruct (IH w1 {| running_reward := running_reward log + reward;
                         average_length := average_length log; t := Some t0 |} Hw1)
        as (tr2 & w2 & log2 & H2 & Hw2 & Hb2 & Ht2).
      rewrite H2. exists (tr ++ tr2), w2, log2. split; [reflexivity|].
      split; [exact Hw2|]. split; [now apply balanced_app|].
      intros _. apply Ht2. right. discriminate.
Qed.

Lemma episode_ready (u K max_timesteps : nat) (w : World) (log : Log) :
  ready u K w -> (1 <= max_timesteps)%nat \/ t log <> None ->
  exists tr w' log',
    episode env_reset u max_timesteps w log = (tr, Ok (w', log'))
    /\ ready u K w' /\ balanced u K tr /\ t log' <> None.
Proof.
  intros Hw Ht. unfold episode. destruct (env_reset (env w)) as [s e].
  match goal with
  | |- context [episode_loop u _ ?w0 log] =>
      destruct (episode_loop_ready u K (seq 0 max_timesteps) w0 log Hw)
        as (tr & w1 & log1 & H1 & Hw1 & Hb1 & Ht1)
  end.
  unfold bind. rewrite H1.
  assert (Hbound : t log1 <> None).
  { apply Ht1. destruct Ht as [Hm|Hl]; [left|right; exact Hl].
    destruct max_timesteps; [lia|discriminate]. }
  destruct (t log1) as [t1|]; [|congruence].
  unfold ret. rewrite app_nil_r. eexists _, _, _. split; [reflexivity|].
  split; [exact Hw1|]. split; [exact Hb1|]. discriminate.
Qed.

Lemma training_loop_ready (u K max_timesteps : nat) (episodes : list nat) :
  forall w log, ready u K w -> (1 <= max_timesteps)%nat \/ t log <> None ->
    exists tr w' log',
      training_loop env_reset u max_timesteps episodes w log = (tr, Ok (w', log'))
      /\ ready u K w' /\ balanced u K tr.
Proof.
  induction episodes as [|i episodes IH]; intros w log Hw Ht; simpl.
  - exists [], w, log. split; [reflexivity|]. split; [exact Hw|apply balanced_nil].
  - destruct (episode_ready u K max_timesteps w log Hw Ht)
      as (tr & w1 & log1 & H1 & Hw1 & Hb1 & Ht1).
    unfold bind. rewrite H1.
    match goal with
    | |- context [training_loop _ _ _ _ w1 ?l] =>
        destruct (IH w1 l Hw1) as (tr2 & w2 & log2 & H2 & Hw2 & Hb2)
    end.
    { right. destruct (_ =? 0)%nat; exact Ht1. }
    rewrite H2. exists (tr ++ tr2), w2, log2. split; [reflexivity|].
    split; [exact Hw2|]. now apply balanced_app.
Qed.

(** With no pass per episode nothing ever binds [t]: the first episode
    ends on the [UnboundLocalError] of line 201. *)
Lemma training_without_a_pass (u max_episodes : nat) (w : World) (log : Log) :
  t log = None -> (1 <= max_episodes)%nat ->
  training env_reset u 0 max_episodes w log = ([], Err UnboundLocalError).
Proof.
  intros Ht Hn. unfold training.
  destruct max_episodes as [|n]; [lia|].
  change (seq 1 (S n)) with (1%nat :: seq 2 n). simpl.
  unfold episode. destruct (env_reset (env w)) as [s e]. simpl.
  rewrite Ht. reflexivity.
Qed.

(** X18.  One pass of the inner loop from a world that satisfies the loop
    invariant, with at least one epoch and a valid covariance: the pass
    returns and the invariant holds again.  If the step it collects is the
    [update_timestep]-th since the last update, exactly one update runs
    (one optimizer step), on a buffer of exactly [update_timestep] steps,
    and the pass ends with an empty buffer and the counter at 0;
    otherwise no call of [update] is made, the buffer is one step longer
    and the optimizer is untouched. *)
Theorem loop_pass_updates_when_due (update_timestep K : nat) (w : World) :
  loop_invariant update_timestep w -> runnable (ppo w) -> K_epochs (ppo w) = K ->
  exists tr w' reward done,
    loop_pass update_timestep w = (tr, Ok (w', reward, done))
    /\ loop_invariant update_timestep w' /\ runnable (ppo w')
    /\ Forall (reduces_over update_timestep) tr
    /\ ((time_step w + 1 = update_timestep)%nat ->
        memory w' = Memory_init /\ time_step w' = 0%nat
        /\ length (filter is_step tr) = 1%nat)
    /\ ((time_step w + 1 <> update_timestep)%nat ->
        tr = [] /\ time_step w' = (time_step w + 1)%nat
        /\ length (actions (memory w')) = S (length (actions (memory w)))
        /\ ppo w' = ppo w).
Proof.
  intros Hinv Hrun HK.
  destruct (loop_pass_ready update_timestep K w (conj Hinv (conj Hrun HK)))
    as (tr & w' & reward & done & H & (Hinv' & Hrun' & _) & (Hred & _) & Hdue & Hnot).
  exists tr, w', reward, done. auto 10.
Qed.

(** X19.  The training loop runs to its end: from a world that
    satisfies the loop invariant, with at least one epoch, a valid
    covariance, an update every two steps or more (so that no update
    reduces over a single return, whose standard deviation is NaN) and at
    least one pass per episode, any number of episodes raises nothing and
    leaves the invariant in force.  Every update in the run was over
    exactly [update_timestep] returns, never over an empty buffer, and the
    run made [K_epochs] calls of [evaluate], one backward pass and one
    reduction per optimizer step.  With [max_timesteps = 0] no pass ever
    binds [t], and the first episode ends on the [UnboundLocalError] of
    line 201. *)
Theorem training_completes
    (update_timestep K max_timesteps max_episodes : nat) (w : World) (log : Log) :
  (loop_invariant update_timestep w -> runnable (ppo w) -> K_epochs (ppo w) = K ->
   (2 <= update_timestep)%nat -> (1 <= max_timesteps)%nat ->
   exists tr w' log',
     training env_reset update_timestep max_timesteps max_episodes w log
     = (tr, Ok (w', log'))
     /\ loop_invariant update_timestep w' /\ runnable (ppo w')
     /\ balanced update_timestep K tr)
  /\ (t log = None -> (1 <= max_episodes)%nat ->
      training env_reset update_timestep 0 max_episodes w log
      = ([], Err UnboundLocalError)).
Proof.
  split; [|apply training_without_a_pass].
  intros Hinv Hrun HK _ Hmt.
  destruct (training_loop_ready update_timestep K max_timesteps (seq 1 max_episodes)
              w log (conj Hinv (conj Hrun HK)) (or_introl Hmt))
    as (tr & w' & log' & H & (Hinv' & Hrun' & _) & Hbal).
  exists tr, w', log'. auto.
Qed.

Lemma main_ready (ppo0 : PPO) (K : nat) (rng0 : Rng) (env0 : Env) :
  synced ppo0 -> positive_definite (action_var (policy_old ppo0)) = true ->
  K_epochs ppo0 = K -> (1 <= K)%nat ->
  ready Hyper.update_timestep K
    {| ppo := ppo0; memory := Memory_init; rng := rng0; env := env0; state := [];
       time_step := 0 |}.
Proof.
  intros Hsy Hpd HK HK1.
  unfold ready, loop_invariant, runnable, collected_by, consistent. simpl.
  repeat split; try assumption; try apply Hsy; try lia.
  unfold Hyper.update_timestep. lia.
Qed.

(** X20.  [main] on an environment whose observation and action spaces
    have one axis and whose states have the number of entries the
    observation space declares: with the module's hyperparameters
    (standard deviation 0.5, 80 epochs, an update every 4000 steps, at
    most 1500 steps per episode) it runs its episodes to the end and
    raises nothing.  Every update of the run reduces over exactly 4000
    returns, and there are 80 calls of [evaluate], one backward pass and
    one reduction for each optimizer step.  On a space without axes
    [shape[0]] raises [IndexError] before anything is built. *)
Theorem main_runs_to_completion (env0 : Env) (rng0 : Rng) :
  (forall state_dim action_dim,
      observation_shape env0 = [state_dim] ->
      action_shape env0 = [action_dim] ->
      emits_states_of env_reset state_dim ->
      exists tr w log,
        main env_reset observation_shape action_shape env0 rng0 = (tr, Finished w log)
        /\ loop_invariant Hyper.update_timestep w
        /\ balanced Hyper.update_timestep Hyper.K_epochs tr)
  /\ (observation_shape env0 = [] \/ action_shape env0 = [] ->
      main env_reset observation_shape action_shape env0 rng0 = ([], IndexError)).
Proof.
  split.
  - intros state_dim action_dim Hobs Hact _.
    assert (Hvar : 0 < Hyper.action_std * Hyper.action_std)
      by (unfold Hyper.action_std; lra).
    unfold main. rewrite Hobs, Hact. unfold PPO_init, ActorCritic_init.
    destruct (init_params state_dim action_dim rng0) as [p r]. simpl rbind.
    destruct (init_params state_dim action_dim r) as [p' r']. simpl rbind.
    cbv beta iota.
    match goal with
    | |- context [training _ _ _ _ ?w0 ?l0] =>
        destruct (training_loop_ready Hyper.update_timestep Hyper.K_epochs
                    Loop.max_timesteps (seq 1 Loop.max_episodes) w0 l0)
          as (tr & w & log & H & (Hinv & Hrun & HK) & Hbal)
    end.
    + apply main_ready.
      * split; reflexivity.
      * apply positive_definite_repeat. exact Hvar.
      * reflexivity.
      * unfold Hyper.K_epochs. lia.
    + left. unfold Loop.max_timesteps. lia.
    + unfold training. rewrite H. exists tr, w, log.
      split; [reflexivity|]. split; [exact Hinv|exact Hbal].
  - intros [H|H]; unfold main; rewrite H; [reflexivity|].
    destruct (observation_shape env0); reflexivity.
Qed.

End Further.

(** ** The further statements, on the small backend *)

Lemma evaluate_shapes_witness :
  exists log_probs state_values dist_entropy,
    evaluate Toy.policy0 [[0]; [0]] [[0]; [0]] = Ok (log_probs, state_values, dist_entropy)
    /\ length log_probs = 2%nat
    /\ length state_values = 2%nat
    /\ length dist_entropy = 2%nat.
Proof.
  exact (proj1 (evaluate_shapes Toy.policy0 [[0]; [0]] [[0]; [0]])
           toy_positive_definite eq_refl).
Defined.

(** No epoch, on the three-step buffer. *)
Lemma update_failures_witness :
  update (Toy.ppo0 0) Toy.memory3
  = ([EvReduce (compute_returns (gamma (Toy.ppo0 0)) (rewards Toy.memory3)
                  (is_terminals Toy.memory3))],
     Err UnboundLocalError).
Proof.
  exact (proj1 (proj2 (update_failures (Toy.ppo0 0) Toy.memory3 toy_consistent))
           ltac:(discriminate) eq_refl).
Defined.

Lemma update_backpropagates_spec_loss_witness :
  consistent Toy.memory3
  /\ exists tr ppo' log_probs state_values dist_entropy,
       update (Toy.ppo0 2) Toy.memory3 = (tr, Ok (ppo', Toy.memory3))
       /\ filter is_backward tr
          = [EvBackward 1
               (spec_batch_loss (eps_clip (Toy.ppo0 2))
                  (normalize (compute_returns (gamma (Toy.ppo0 2)) (rewards Toy.memory3)
                                (is_terminals Toy.memory3)))
                  (map2 (fun lp olp => exp (lp - olp)) log_probs
                     (map (fun t => hd 0 (data t)) (logprobs Toy.memory3)))
                  state_values dist_entropy)].
Proof.
  split; [exact toy_consistent|].
  destruct (update_backpropagates_spec_loss (Toy.ppo0 2) Toy.memory3
              toy_consistent ltac:(discriminate) ltac:(simpl; lia)
              toy_positive_definite)
    as (tr & ppo' & lp & sv & de & Hup & _ & Hb).
  exists tr, ppo', lp, sv, de. split; [exact Hup|exact Hb].
Defined.

Lemma toy_synced (K : nat) : synced (Toy.ppo0 K).
Proof. split; reflexivity. Qed.

Lemma toy_collected : collected_by Toy.policy0 toy_memory1.
Proof. split; reflexivity. Qed.

Lemma update_ratios_are_one_witness :
  synced (Toy.ppo0 1) /\ collected_by (policy_old (Toy.ppo0 1)) toy_memory1
  /\ exists log_probs state_values dist_entropy,
       evaluate (policy (Toy.ppo0 1)) (map data (states toy_memory1))
         (map data (actions toy_memory1))
       = Ok (log_probs, state_values, dist_entropy)
       /\ map2 (fun lp olp => exp (lp - olp)) log_probs
            (map (fun t => hd 0 (data t)) (logprobs toy_memory1))
          = [1].
Proof.
  split; [exact (toy_synced 1)|]. split; [exact toy_collected|].
  destruct (update_ratios_are_one (Toy.ppo0 1) toy_memory1 (toy_synced 1)
              toy_collected toy_positive_definite)
    as (lp & sv & de & Hev & _ & Hone & _).
  exists lp, sv, de. split; [exact Hev|exact Hone].
Defined.

Lemma update_changes_parameters_only_witness :
  exists tr ppo' memory',
    update (Toy.ppo0 1) Toy.memory3 = (tr, Ok (ppo', memory'))
    /\ gamma ppo' = gamma (Toy.ppo0 1)
    /\ K_epochs ppo' = 1%nat
    /\ action_var (policy ppo') = [0.5 * 0.5].
Proof.
  destruct (update_ok (Toy.ppo0 1) Toy.memory3
              ltac:(discriminate) ltac:(discriminate) ltac:(discriminate)
              ltac:(simpl; lia) toy_positive_definite)
    as (lp & sv & de & opt' & p' & _ & _ & Hup).
  eexists _, _, _. split; [exact Hup|].
  destruct (update_changes_parameters_only _ _ _ _ _ Hup)
    as (_ & _ & Hg & _ & HK & Hv & _).
  split; [exact Hg|]. split; [exact HK|exact Hv].
Defined.

Lemma construction_with_positive_variance_witness :
  0 < 0.5 * 0.5
  /\ exists ppo rng',
       PPO_init (B := Toy.backend) 2 1 0.5 Hyper.lr Hyper.betas Hyper.gamma
         Hyper.K_epochs Hyper.eps_clip 0%nat
       = Ok (ppo, rng')
       /\ synced ppo
       /\ positive_definite (action_var (policy_old ppo)) = true.
Proof.
  assert (H : 0 < 0.5 * 0.5) by lra.
  split; [exact H|].
  destruct (proj1 (construction_with_positive_variance (B := Toy.backend) 2 1 0.5
                     Hyper.lr Hyper.betas Hyper.gamma Hyper.K_epochs Hyper.eps_clip
                     0%nat) H)
    as (ppo & rng' & Hi & Hs & _ & _ & Hpd).
  exists ppo, rng'. auto.
Defined.

Lemma collect_appends_witness :
  exists w',
    collect 3 (Toy.world0 1) = Ok w'
    /\ consistent (memory w')
    /\ time_step w' = 0%nat.
Proof.
  destruct (collect_ok 3 (Toy.world0 1) toy_positive_definite) as [w' H].
  exists w'. split; [exact H|].
  destruct (collect_appends 3 (Toy.world0 1) w' H) as (_ & Hc & Ht).
  split; [apply Hc; repeat split|exact Ht].
Defined.

Lemma toy_loop_invariant (K : nat) : loop_invariant 3 (Toy.world0 K).
Proof.
  unfold loop_invariant, consistent, synced, collected_by. simpl.
  repeat split. lia.
Qed.

Lemma toy_runnable : runnable (ppo (Toy.world0 1)).
Proof. split; [simpl; lia|exact toy_positive_definite]. Qed.

Lemma loop_pass_updates_when_due_witness :
  loop_invariant 3 (Toy.world0 1)
  /\ exists tr w' reward done,
       loop_pass 3 (Toy.world0 1) = (tr, Ok (w', reward, done))
       /\ loop_invariant 3 w'
       /\ tr = [].
Proof.
  split; [exact (toy_loop_invariant 1)|].
  destruct (loop_pass_updates_when_due 3 1 (Toy.world0 1) (toy_loop_invariant 1)
              toy_runnable eq_refl)
    as (tr & w' & reward & done & H & Hinv & _ & _ & _ & Hnot).
  exists tr, w', reward, done. split; [exact H|]. split; [exact Hinv|].
  apply Hnot. simpl. lia.
Defined.

Lemma training_completes_witness :
  exists tr w' log',
    training toy_reset 3 5 4 (Toy.world0 1) toy_log = (tr, Ok (w', log'))
    /\ loop_invariant 3 w'
    /\ balanced 3 1 tr.
Proof.
  destruct (proj1 (training_completes toy_reset 3 1 5 4 (Toy.world0 1) toy_log)
              (toy_loop_invariant 1) toy_runnable eq_refl
              ltac:(lia) ltac:(lia))
    as (tr & w' & log' & H & Hinv & _ & Hbal).
  exists tr, w', log'. auto.
Defined.

Lemma toy_emits_states : emits_states_of toy_reset 2.
Proof. split; intros; reflexivity. Qed.

Lemma main_runs_to_completion_witness :
  emits_states_of toy_reset 2
  /\ exists tr w log,
       main (B := Toy.backend) toy_reset toy_observation_shape toy_action_shape
         0%nat 0%nat
       = (tr, Finished w log)
       /\ balanced Hyper.update_timestep Hyper.K_epochs tr.
Proof.
  split; [exact toy_emits_states|].
  destruct (proj1 (main_runs_to_completion (B := Toy.backend) toy_reset
                     toy_observation_shape toy_action_shape 0%nat 0%nat)
              2%nat 1%nat eq_refl eq_refl toy_emits_states)
    as (tr & w & log & H & _ & Hbal).
  exists tr, w, log. auto.
Defined.

Lemma update_call_order_witness :
  exists tr ppo' memory' loss,
    update (Toy.ppo0 2) Toy.memory3 = (tr, Ok (ppo', memory'))
    /\ tr = [EvReduce (compute_returns (gamma (Toy.ppo0 2)) (rewards Toy.memory3)
                         (is_terminals Toy.memory3));
             EvEvaluate Current 0; EvEvaluate Current 1;
             EvZeroGrad; EvBackward 1 loss; EvStep; EvLoadStateDict].
Proof.
  destruct (update_ok (Toy.ppo0 2) Toy.memory3
              ltac:(discriminate) ltac:(discriminate) ltac:(discriminate)
              ltac:(simpl; lia) toy_positive_definite)
    as (lp & sv & de & opt' & p' & _ & _ & Hup).
  destruct (update_call_order _ _ _ _ _ Hup) as [loss Htr].
  eexists _, _, _, loss. split; [exact Hup|exact Htr].
Defined.
